(** * IndexedDB coordinator (ext/webstorage/02_indexeddb.js)

    A shallow embedding of the key model, key ranges, the key generator,
    the add/put gate, cursor iteration and the transaction / request
    pipeline of [02_indexeddb.js], followed by the properties stated
    about them.

    Conventions.
    - JavaScript [undefined] / [null] in an optional slot is [None].
    - A thrown exception is the [Throw] case of [Res].
    - Numbers are IEEE doubles.  A non-NaN double is either an infinity or
      a rational, so [number] is the rationals extended by two infinities;
      NaN never reaches a key ([valueToKey] rejects it).
    - Objects with identity (arrays met by [valueToKey], requests) carry
      an identifier.
    - Imperative code over the transaction and its requests is written in
      a state-and-exception monad [Txn.M]; an [async] body suspended at an
      [await] is a [Txn.Task].

    Contents.
    - Key model: [compareTwoKeys], [valueToKey], [valueToMultiEntryKey].
    - [KeyRange]: [keyInRange], the constructors, [includes].
    - [KeyGenerator]: [generateKey], [possiblyUpdate].
    - [ObjectStore]: [addOrPut].
    - [Cursor]: [iterateCursor], [assertCursor], [advance].
    - [Txn]: [asynchronouslyExecuteRequest], [commitTransaction],
      [abortTransaction], [commit], [abort].
    - Further operations: [keyToValue], [IDBFactory.cmp],
      [valueToKeyRange], [delete], [clear], [get],
      [storeRecordIntoObjectStore], [continue].
    - Properties: C1 to C10, each with the lemmas that say what does hold
      around it, and further properties of the same functions. *)

From stdpp Require Import gmap list.
From Stdlib Require Import ZArith QArith Qround List Sorted String Ascii Bool Lia.
From Stdlib Require Import OrderedTypeEx.
Import ListNotations.

Local Open Scope Z_scope.

(** ** Exceptions and fallible results *)

Inductive DOMExceptionName :=
| AbortError
| ConstraintError
| DataError
| InvalidStateError
| ReadOnlyError
| TransactionInactiveError.

Inductive Exn :=
| DOMException (name : DOMExceptionName)
| TypeError
| AssertionError
| BackendError (code : nat)
| DataCloneError.

Inductive Res (A : Type) :=
| Ok (a : A)
| Throw (e : Exn).
Arguments Ok {A} a.
Arguments Throw {A} e.

Definition res_bind {A B} (c : Res A) (k : A -> Res B) : Res B :=
  match c with
  | Ok a => k a
  | Throw e => Throw e
  end.

Notation "'try!' x <- c ; k" := (res_bind c (fun x => k))
  (at level 10, x name, c at level 100, k at level 200).

(** [o !== undefined] and [o !== null] on an optional slot. *)
Definition isSome {A} (o : option A) : bool :=
  match o with Some _ => true | None => false end.

(** ** Numbers *)

Module JsNumber.

(** A double that is not NaN. *)
Inductive number :=
| NegInfinity
| Finite (q : Q)
| PosInfinity.

Definition ofZ (z : Z) : number := Finite (inject_Z z).

(** [a < b] on doubles. *)
Definition ltb (a b : number) : bool :=
  match a, b with
  | NegInfinity, NegInfinity => false
  | NegInfinity, _ => true
  | Finite _, NegInfinity => false
  | Finite x, Finite y =>
      match Qcompare x y with Lt => true | _ => false end
  | Finite _, PosInfinity => true
  | PosInfinity, _ => false
  end.

(** [a > b] is [b < a]. *)
Definition gtb (a b : number) : bool := ltb b a.

(** 2^53, written 9007199254740992 in the source. *)
Definition two53 : Z := 9007199254740992.

(** [x + 1] in double arithmetic, for an integer [x] with
    [0 <= x <= 2^53].  Below 2^53 the sum is exact.  2^53 + 1 is not a
    double: it lies half way between 2^53 and 2^53 + 2 and rounds to the
    even significand, 2^53. *)
Definition succ (x : Z) : Z :=
  if x =? two53 then two53 else x + 1.

End JsNumber.
Import JsNumber.

(** ** Key model *)

(** What [webidl.converters.BufferSource(input).slice()] can give: a copy
    of an [ArrayBuffer] or of a typed array (here: [Uint8Array]). *)
Inductive Buffer :=
| ArrayBuffer (bytes : list Byte.byte)
| Uint8Array (bytes : list Byte.byte).

Inductive KeyType := number_t | date_t | string_t | binary_t | array_t.

(** [{ type, value }] objects.  A date key holds the [Date] object, which
    relational operators read through its time value (milliseconds). *)
#[local] Set Warnings "-register-all".
Inductive Key :=
| KNumber (value : number)
| KDate (value : Z)
| KString (value : string)
| KBinary (value : Buffer)
| KArray (value : list Key).

Definition keyType (k : Key) : KeyType :=
  match k with
  | KNumber _ => number_t
  | KDate _ => date_t
  | KString _ => string_t
  | KBinary _ => binary_t
  | KArray _ => array_t
  end.

Definition KeyType_eqb (a b : KeyType) : bool :=
  match a, b with
  | number_t, number_t | date_t, date_t | string_t, string_t
  | binary_t, binary_t | array_t, array_t => true
  | _, _ => false
  end.

(** *** Relational comparison of buffers

    [va < vb] on two objects converts both to primitives.  A typed array
    stringifies through [join]: its elements in decimal, separated by
    commas.  An [ArrayBuffer] stringifies to a constant.  Two strings are
    then compared by code units. *)

Definition digit (n : N) : ascii := ascii_of_N (48 + n).

Definition byteToString (b : Byte.byte) : string :=
  let n := Byte.to_N b in
  if (n <? 10)%N then String (digit n) EmptyString
  else if (n <? 100)%N then
    String (digit (n / 10)) (String (digit (n mod 10)) EmptyString)
  else
    String (digit (n / 100))
      (String (digit ((n / 10) mod 10)) (String (digit (n mod 10)) EmptyString)).

Fixpoint join (l : list Byte.byte) : string :=
  match l with
  | [] => EmptyString
  | [b] => byteToString b
  | b :: rest => (byteToString b ++ "," ++ join rest)%string
  end.

Definition bufferToString (b : Buffer) : string :=
  match b with
  | ArrayBuffer _ => "[object ArrayBuffer]"%string
  | Uint8Array bytes => join bytes
  end.

Definition buffer_ltb (a b : Buffer) : bool :=
  String.ltb (bufferToString a) (bufferToString b).

(** *** compareTwoKeys *)

(** The [ta !== tb] cascade.  The type read off an operand that is not a
    key object is [undefined], here [None].  When the two differ, the
    final [assert(tb === "date")] cannot fail: every earlier branch was
    skipped, so [ta] is [undefined] and [tb] is ["date"]. *)
Definition crossType (ta tb : option KeyType) : Z :=
  match ta, tb with
  | Some array_t, _ => 1
  | _, Some array_t => -1
  | Some binary_t, _ => 1
  | _, Some binary_t => -1
  | Some string_t, _ => 1
  | _, Some string_t => -1
  | Some number_t, _ => 1
  | _, Some number_t => -1
  | Some date_t, _ => 1
  | _, _ => -1
  end.

Fixpoint compareTwoKeys (a b : Key) {struct a} : Z :=
  match a, b with
  | KNumber va, KNumber vb =>
      if JsNumber.gtb va vb then 1
      else if JsNumber.ltb va vb then -1
      else 0
  | KDate va, KDate vb =>
      if va >? vb then 1
      else if va <? vb then -1
      else 0
  | KString va, KString vb =>
      if String.ltb va vb then -1
      else if String.ltb vb va then 1
      else 0
  | KBinary va, KBinary vb =>
      if buffer_ltb va vb then -1
      else if buffer_ltb vb va then -1
      else 0
  | KArray va, KArray vb =>
      (fix loop (xs : list Key) (ys : list Key) {struct xs} : Z :=
         match xs, ys with
         | x :: xs', y :: ys' =>
             let c := compareTwoKeys x y in
             if c =? 0 then loop xs' ys' else c
         | _ :: _, [] => 1
         | [], _ :: _ => -1
         | [], [] => 0
         end) va vb
  | _, _ => crossType (Some (keyType a)) (Some (keyType b))
  end.

(** The array case of [compareTwoKeys], named. *)
Fixpoint compareArrays (xs ys : list Key) : Z :=
  match xs, ys with
  | x :: xs', y :: ys' =>
      let c := compareTwoKeys x y in
      if c =? 0 then compareArrays xs' ys' else c
  | _ :: _, [] => 1
  | [], _ :: _ => -1
  | [], [] => 0
  end.

(** Keys with no binary key in them. *)
Fixpoint binaryFree (k : Key) : bool :=
  match k with
  | KBinary _ => false
  | KArray l => forallb binaryFree l
  | _ => true
  end.

(** *** Order laws

    Used to state what holds of [compareTwoKeys] away from binary keys. *)

Definition signZ (c : comparison) : Z :=
  match c with Lt => -1 | Eq => 0 | Gt => 1 end.

(** An order on doubles as a three-way comparison. *)
Definition number_compare (a b : number) : comparison :=
  match a, b with
  | NegInfinity, NegInfinity => Eq
  | NegInfinity, _ => Lt
  | Finite _, NegInfinity => Gt
  | Finite x, Finite y => Qcompare x y
  | Finite _, PosInfinity => Lt
  | PosInfinity, PosInfinity => Eq
  | PosInfinity, _ => Gt
  end.

(** The three laws a three-way comparison must obey for the
    lexicographic order built on it to be transitive. *)
Definition lawful {A} (cmp : A -> A -> comparison) : Prop :=
  forall a b c,
    (cmp a b = Eq -> cmp a c = cmp b c)
    /\ (cmp a b = Lt -> cmp b c = Lt -> cmp a c = Lt)
    /\ (cmp a b = Lt -> cmp b c = Eq -> cmp a c = Lt).

(** Keys: the same three laws, on the integer the code returns. *)
Definition lawfulAt (a : Key) : Prop :=
  forall b c, binaryFree a = true -> binaryFree b = true -> binaryFree c = true ->
    (compareTwoKeys a b = 0 -> compareTwoKeys a c = compareTwoKeys b c)
    /\ (compareTwoKeys a b = -1 -> compareTwoKeys b c = -1 -> compareTwoKeys a c = -1)
    /\ (compareTwoKeys a b = -1 -> compareTwoKeys b c = 0 -> compareTwoKeys a c = -1).

(** ** Values and their conversion to keys *)

(** The application values [valueToKey] distinguishes.  [VNumber None] is
    NaN and [VDate None] an invalid date.  An array is an object: [id] is
    its identity, which the [seen] set records.  [VDataView] stands for a
    buffer source without a [slice] method, [VOther] for every value that
    is no buffer source at all ([undefined], [null], booleans, plain
    objects). *)
Inductive Value :=
| VNumber (n : option number)
| VDate (ms : option Z)
| VString (s : string)
| VArray (id : nat) (entries : list Value)
| VArrayBuffer (bytes : list Byte.byte)
| VUint8Array (bytes : list Byte.byte)
| VDataView
| VOther.

Definition SetPrototypeHas (seen : list nat) (id : nat) : bool :=
  existsb (Nat.eqb id) seen.

Definition SetPrototypeAdd (seen : list nat) (id : nat) : list nat :=
  if SetPrototypeHas seen id then seen else seen ++ [id].

(** [valueToKey(input, seen)].  The set is one mutable object shared by
    the whole recursion, so it is threaded through and returned.  Only
    arrays are ever added to it. *)
Fixpoint valueToKey_seen (input : Value) (seen : list nat) {struct input}
  : option Key * list nat :=
  match input with
  | VNumber None => (None, seen)
  | VNumber (Some n) => (Some (KNumber n), seen)
  | VDate None => (None, seen)
  | VDate (Some ms) => (Some (KDate ms), seen)
  | VString s => (Some (KString s), seen)
  | VArray id entries =>
      if SetPrototypeHas seen id then (None, seen)
      else
        (fix each (rest : list Value) (seen : list nat) (keys : list Key)
             {struct rest} : option Key * list nat :=
           match rest with
           | [] => (Some (KArray keys), seen)
           | entry :: rest' =>
               match valueToKey_seen entry seen with
               | (None, seen') => (None, seen')
               | (Some key, seen') => each rest' seen' (keys ++ [key])
               end
           end) entries (SetPrototypeAdd seen id) []
  | VArrayBuffer bytes => (Some (KBinary (ArrayBuffer bytes)), seen)
  | VUint8Array bytes => (Some (KBinary (Uint8Array bytes)), seen)
  | VDataView => (None, seen)
  | VOther => (None, seen)
  end.

(** [valueToKey(input)] with the default [seen = new Set()]. *)
Definition valueToKey (input : Value) : option Key :=
  fst (valueToKey_seen input []).

(** The second argument of [compareTwoKeys] as the callers pass it: a
    key object, or an application value.  The values of this model have
    no [type] and no [value] property, so both read as [undefined]. *)
Inductive Operand :=
| OKey (k : Key)
| ORaw (v : Value).

Definition compareTwoKeys_operand (a : Key) (b : Operand) : Z :=
  match b with
  | OKey kb => compareTwoKeys a kb
  | ORaw _ => crossType (Some (keyType a)) None
  end.

(** [keys.find((item) => compareTwoKeys(item, key))]: the callback's
    result is used as a truth value, and a number is truthy unless it is
    zero. *)
Definition truthy (z : Z) : bool := negb (z =? 0).

Definition findDiffering (keys : list Key) (key : Key) : option Key :=
  List.find (fun item => truthy (compareTwoKeys item key)) keys.

Fixpoint multiEntryLoop (entries : list Value) (seen : list nat)
  (keys : list Key) {struct entries} : list Key :=
  match entries with
  | [] => keys
  | entry :: rest =>
      match valueToKey_seen entry seen with
      | (Some key, seen') =>
          match findDiffering keys key with
          | None => multiEntryLoop rest seen' (keys ++ [key])
          | Some _ => multiEntryLoop rest seen' keys
          end
      | (None, seen') => multiEntryLoop rest seen' keys
      end
  end.

Definition valueToMultiEntryKey (input : Value) : option Key :=
  match input with
  | VArray id entries => Some (KArray (multiEntryLoop entries [id] []))
  | _ => valueToKey input
  end.

(** The conversion the multi-entry rule describes: every entry converted
    on its own, a key kept unless an earlier kept key compares equal. *)
Definition keptBefore (keys : list Key) (key : Key) : bool :=
  existsb (fun item => compareTwoKeys item key =? 0) keys.

Fixpoint dedupFirst (entries : list Key) (keys : list Key) : list Key :=
  match entries with
  | [] => keys
  | key :: rest =>
      if keptBefore keys key then dedupFirst rest keys
      else dedupFirst rest (keys ++ [key])
  end.

(** ** Key ranges *)

Module KeyRange.

Record IDBKeyRange := createRange {
  _lowerBound : option Key;
  _upperBound : option Key;
  _lowerOpen : bool;
  _upperOpen : bool
}.

(** [keyInRange(range, key)].  The callers pass either a key object
    (cursor iteration) or whatever they hold ([includes]). *)
Definition keyInRange (range : IDBKeyRange) (key : Operand) : bool :=
  let lower :=
    match _lowerBound range with
    | None => true
    | Some lb =>
        (compareTwoKeys_operand lb key =? -1)
        || ((compareTwoKeys_operand lb key =? 0) && negb (_lowerOpen range))
    end in
  let upper :=
    match _upperBound range with
    | None => true
    | Some ub =>
        (compareTwoKeys_operand ub key =? 1)
        || ((compareTwoKeys_operand ub key =? 0) && negb (_upperOpen range))
    end in
  lower && upper.

Definition only (value : Value) : Res IDBKeyRange :=
  match valueToKey value with
  | None => Throw (DOMException DataError)
  | Some key => Ok (createRange (Some key) (Some key) false false)
  end.

Definition lowerBound (lower : Value) (open : bool) : Res IDBKeyRange :=
  match valueToKey lower with
  | None => Throw (DOMException DataError)
  | Some lowerKey => Ok (createRange (Some lowerKey) None open true)
  end.

Definition upperBound (upper : Value) (open : bool) : Res IDBKeyRange :=
  match valueToKey upper with
  | None => Throw (DOMException DataError)
  | Some upperKey => Ok (createRange None (Some upperKey) true open)
  end.

Definition bound (lower upper : Value) (lowerOpen upperOpen : bool)
  : Res IDBKeyRange :=
  match valueToKey lower with
  | None => Throw (DOMException DataError)
  | Some lowerKey =>
      match valueToKey upper with
      | None => Throw (DOMException DataError)
      | Some upperKey =>
          if compareTwoKeys lowerKey upperKey =? 1
          then Throw (DOMException DataError)
          else Ok (createRange (Some lowerKey) (Some upperKey) lowerOpen upperOpen)
      end
  end.

(** [IDBKeyRange.prototype.includes]: [keyVal] is computed and checked,
    and [keyInRange] is then called on [key]. *)
Definition includes (this : IDBKeyRange) (key : Value) : Res bool :=
  match valueToKey key with
  | None => Throw (DOMException DataError)
  | Some keyVal => Ok (keyInRange this (ORaw key))
  end.

(** Membership as the range rule states it, on the converted key. *)
Definition matches (range : IDBKeyRange) (key : Key) : bool :=
  (match _lowerBound range with
   | None => true
   | Some lower =>
       (compareTwoKeys lower key =? -1)
       || ((compareTwoKeys lower key =? 0) && negb (_lowerOpen range))
   end)
  &&
  (match _upperBound range with
   | None => true
   | Some upper =>
       (compareTwoKeys upper key =? 1)
       || ((compareTwoKeys upper key =? 0) && negb (_upperOpen range))
   end).

End KeyRange.

(** ** Key generator *)

Module KeyGenerator.

(** [current] is a double; it only ever holds an integer between 1 and
    2^53 (lemma [current_bounds] below), and is kept as that integer. *)
Record KeyGenerator := { current : Z }.

Definition initial : KeyGenerator := {| current := 1 |}.

(** [generateKey()]: the key and the generator after [this.current++]. *)
Definition generateKey (this : KeyGenerator) : Res (Key * KeyGenerator) :=
  if current this >? two53 then Throw (DOMException ConstraintError)
  else Ok (KNumber (ofZ (current this)),
           {| current := JsNumber.succ (current this) |}).

Definition MathMin (a b : number) : number :=
  if JsNumber.ltb b a then b else a.

Definition MathFloor (a : number) : number :=
  match a with
  | Finite q => ofZ (Qfloor q)
  | _ => a
  end.

(** [MathFloor(MathMin(v, 9007199254740992))] is [-Infinity] ([None])
    or an integer; it is never [+Infinity]. *)
Definition floorMin (v : number) : option Z :=
  match MathFloor (MathMin v (ofZ two53)) with
  | NegInfinity => None
  | Finite q => Some (Qfloor q)
  | PosInfinity => Some two53
  end.

Definition possiblyUpdate (this : KeyGenerator) (key : Key) : KeyGenerator :=
  match key with
  | KNumber v =>
      match floorMin v with
      | Some value =>
          if value >=? current this
          then {| current := JsNumber.succ value |}
          else this
      | None => this
      end
  | _ => this
  end.

Inductive Call :=
| GenerateKey
| PossiblyUpdate (key : Key).

(** One call: the generator afterwards and the key handed out, if any.
    A [generateKey] that throws hands out nothing and changes nothing. *)
Definition call (this : KeyGenerator) (c : Call)
  : KeyGenerator * option Key :=
  match c with
  | GenerateKey =>
      match generateKey this with
      | Ok (key, this') => (this', Some key)
      | Throw _ => (this, None)
      end
  | PossiblyUpdate key => (possiblyUpdate this key, None)
  end.

(** A sequence of calls: every value [current] passes through (the
    start value first) and the keys handed out, in order. *)
Fixpoint run (this : KeyGenerator) (calls : list Call)
  : list Z * list Key :=
  match calls with
  | [] => ([current this], [])
  | c :: rest =>
      let '(this', out) := call this c in
      let '(states, keys) := run this' rest in
      (current this :: states,
       match out with Some k => k :: keys | None => keys end)
  end.

(** The values [current] can take. *)
Definition inBounds (g : KeyGenerator) : Prop :=
  1 <= current g <= two53.

End KeyGenerator.

(** ** Transactions: states and modes *)

Inductive TransactionState := active | inactive | committing | finished.
Inductive IDBTransactionMode := readonly | readwrite | versionchange.

Definition TransactionState_eqb (a b : TransactionState) : bool :=
  match a, b with
  | active, active | inactive, inactive
  | committing, committing | finished, finished => true
  | _, _ => false
  end.

Definition IDBTransactionMode_eqb (a b : IDBTransactionMode) : bool :=
  match a, b with
  | readonly, readonly | readwrite, readwrite
  | versionchange, versionchange => true
  | _, _ => false
  end.

(** ** Object store handles: add and put *)

Module ObjectStore.

Inductive KeyPath :=
| KeyPathString (path : string)
| KeyPathList (paths : list string).

Record Store := {
  keyPath : option KeyPath;
  keyGenerator : option KeyGenerator.KeyGenerator
}.

(** The two slots of the handle's transaction that [addOrPut] reads. *)
Record IDBObjectStore := {
  _state : TransactionState;
  _mode : IDBTransactionMode;
  _store : Store
}.

(** [extractKeyFromValueUsingKeyPath] gives [_failure], [null] or a key. *)
Inductive Extracted :=
| _failure
| extracted (key : option Key).

(** The deferred call [storeRecordIntoObjectStore(store, cloned, key,
    noOverwrite)] handed to [asynchronouslyExecuteRequest]. *)
Record StoreOperation := {
  so_value : Value;
  so_key : option Key;
  so_noOverwrite : bool
}.

Section AddOrPut.

(** The backend call behind [assertObjectStore], structured cloning
    and the key-path helpers work on object graphs that this model
    does not describe; they are taken as given. *)
Variable assertObjectStore : IDBObjectStore -> Res unit.
Variable clone : Value -> Res Value.
Variable extractKeyFromValueUsingKeyPath : Value -> KeyPath -> Extracted.
Variable checkKeyCanBeInjectedIntoValue : Value -> KeyPath -> bool.

Definition addOrPut (handle : IDBObjectStore) (value : Value)
  (key : option Value) (noOverwrite : bool) : Res StoreOperation :=
  try! _ <- assertObjectStore handle;
  if negb (TransactionState_eqb (_state handle) active)
  then Throw (DOMException TransactionInactiveError)
  else if negb (IDBTransactionMode_eqb (_mode handle) readonly)
  then Throw (DOMException ReadOnlyError)
  else if isSome (keyPath (_store handle)) && isSome key
  then Throw (DOMException DataError)
  else if negb (isSome (keyPath (_store handle)))
          && negb (isSome (keyGenerator (_store handle)))
          && negb (isSome key)
  then Throw (DOMException DataError)
  else
    try! key <- match key with
                | None => Ok None
                | Some k =>
                    match valueToKey k with
                    | None => Throw (DOMException DataError)
                    | Some r => Ok (Some r)
                    end
                end;
    try! cloned <- clone value;
    try! key <- match keyPath (_store handle) with
                | None => Ok key
                | Some kp =>
                    match extractKeyFromValueUsingKeyPath cloned kp with
                    | extracted None => Throw (DOMException DataError)
                    | extracted (Some kpk) => Ok (Some kpk)
                    | _failure =>
                        if negb (isSome (keyGenerator (_store handle)))
                        then Throw (DOMException DataError)
                        else if negb (checkKeyCanBeInjectedIntoValue cloned kp)
                        then Throw (DOMException DataError)
                        else Ok key
                    end
                end;
    Ok {| so_value := cloned; so_key := key; so_noOverwrite := noOverwrite |}.

Definition put (this : IDBObjectStore) (value : Value) (key : option Value) :=
  addOrPut this value key false.

Definition add (this : IDBObjectStore) (value : Value) (key : option Value) :=
  addOrPut this value key true.

End AddOrPut.

End ObjectStore.

(** ** Cursors *)

Module Cursor.
Import KeyRange.

Inductive IDBCursorDirection := next | nextunique | prev | prevunique.

(** What [cursor[_source] instanceof ...] tells apart. *)
Inductive Source := IDBObjectStore | IDBIndex.

Record IDBCursor := {
  _source : Source;
  _direction : IDBCursorDirection;
  _range : IDBKeyRange;
  _keyOnly : bool;
  _position : option Key;
  _objectStorePosition : option Value;
  _key : option Key;
  _value : option Value;
  _gotValue : bool
}.

Definition createCursor (direction : IDBCursorDirection) (source : Source)
  (range : IDBKeyRange) (keyOnly : bool) : IDBCursor :=
  {| _source := source; _direction := direction; _range := range;
     _keyOnly := keyOnly; _position := None; _objectStorePosition := None;
     _key := None; _value := None; _gotValue := false |}.

(** A record as the backend lists it, [[recordKey, value]];
    [core.deserialize] is the identity on the values of this model. *)
Definition Record_ : Type := Key * Value.

Definition isIndex (s : Source) : bool :=
  match s with IDBIndex => true | IDBObjectStore => false end.

(** [compareTwoKeys(a, b)] where either argument may be [null] or
    [undefined]: reading [type] off it throws. *)
Definition compareOpt (a : option Key) (b : option (Operand)) : Res Z :=
  match a, b with
  | Some ka, Some kb => Ok (compareTwoKeys_operand ka kb)
  | _, _ => Throw TypeError
  end.

Definition asOperand (k : option Key) : option (Operand) :=
  option_map OKey k.

Definition valueToKey_opt (v : option Value) : option Key :=
  match v with
  | Some x => valueToKey x
  | None => valueToKey VOther
  end.

Fixpoint findM {A} (p : A -> Res bool) (l : list A) : Res (option A) :=
  match l with
  | [] => Ok None
  | x :: rest =>
      try! hit <- p x;
      if hit then Ok (Some x) else findM p rest
  end.

Section IterateCursor.

Variable cursor : IDBCursor.
Variable key : option (Operand).
Variable primaryKey : option Key.

(** The test on [key], [recordKey] against it being [against]:
    [!== -1] going forward, [!== 1] going backward. *)
Definition keyTest (against : Z) (recordKey : Key) : bool :=
  match key with
  | None => true
  | Some k => negb (compareTwoKeys_operand recordKey k =? against)
  end.

(** [(compare(recordKey, key) === 0 && compare(valueToKey(value),
    primaryKey) !== against) || compare(recordKey, key) === -against]. *)
Definition primaryKeyTest (against : Z) (r : Record_) : Res bool :=
  match primaryKey with
  | None => Ok true
  | Some pk =>
      try! c <- compareOpt (Some (fst r)) key;
      if c =? 0 then
        try! d <- compareOpt (valueToKey (snd r)) (Some (OKey pk));
        if negb (d =? against) then Ok true
        else Ok (c =? - against)
      else Ok (c =? - against)
  end.

(** The test on the position, [toward] being [1] going forward and
    [-1] going backward. *)
Definition positionTest (toward : Z) (position : option Key) (r : Record_)
  : Res bool :=
  match position with
  | None => Ok true
  | Some pos =>
      if isIndex (_source cursor) then
        if compareTwoKeys (fst r) pos =? 0 then
          try! d <- compareOpt (valueToKey (snd r))
                      (asOperand (valueToKey_opt (_objectStorePosition cursor)));
          if d =? toward then Ok true
          else Ok (compareTwoKeys (fst r) pos =? toward)
        else Ok (compareTwoKeys (fst r) pos =? toward)
      else Ok (compareTwoKeys (fst r) pos =? toward)
  end.

Definition inRange (r : Record_) : bool :=
  keyInRange (_range cursor) (OKey (fst r)).

Definition matchesNext (position : option Key) (r : Record_) : Res bool :=
  let a := keyTest (-1) (fst r) in
  try! b <- primaryKeyTest (-1) r;
  try! c <- positionTest 1 position r;
  Ok (a && b && c && inRange r).

Definition matchesNextUnique (position : option Key) (r : Record_)
  : Res bool :=
  let a := keyTest (-1) (fst r) in
  let b := match position with
           | None => true
           | Some pos => compareTwoKeys (fst r) pos =? 1
           end in
  Ok (a && b && inRange r).

Definition matchesPrev (position : option Key) (r : Record_) : Res bool :=
  let a := keyTest 1 (fst r) in
  try! b <- primaryKeyTest 1 r;
  try! c <- positionTest (-1) position r;
  Ok (a && b && c && inRange r).

Definition matchesPrevUnique (position : option Key) (r : Record_)
  : Res bool :=
  let a := keyTest 1 (fst r) in
  let b := match position with
           | None => true
           | Some pos => compareTwoKeys (fst r) pos =? -1
           end in
  Ok (a && b && inRange r).

(** One pass of the [switch]: the new [foundRecord].  [find] assigns
    its result, found or not; the two backward loops assign only when
    they find a record, so [foundRecord] keeps its earlier value
    otherwise. *)
Definition select (records : list Record_) (position : option Key)
  (foundRecord : option Record_) : Res (option Record_) :=
  match _direction cursor with
  | next => findM (matchesNext position) records
  | nextunique => findM (matchesNextUnique position) records
  | prev =>
      try! hit <- findM (matchesPrev position) (rev records);
      match hit with
      | Some r => Ok (Some r)
      | None => Ok foundRecord
      end
  | prevunique =>
      try! tempRecord <- findM (matchesPrevUnique position) (rev records);
      match tempRecord with
      | Some t =>
          Ok (List.find (fun r => compareTwoKeys (fst r) (fst t) =? 0) records)
      | None => Ok foundRecord
      end
  end.

(** The [for (; count > 0; count--)] loop and what follows it.  The
    result is the cursor afterwards and whether the cursor (rather
    than [null]) is returned. *)
Fixpoint loop (records : list Record_) (count : nat)
  (position : option Key) (objectStorePosition : option Value)
  (foundRecord : option Record_) {struct count} : Res (IDBCursor * bool) :=
  match count with
  | O =>
      match foundRecord with
      | None => Throw TypeError
      | Some found =>
          Ok ({| _source := _source cursor;
                 _direction := _direction cursor;
                 _range := _range cursor;
                 _keyOnly := _keyOnly cursor;
                 _position := position;
                 _objectStorePosition :=
                   if isIndex (_source cursor) then objectStorePosition
                   else _objectStorePosition cursor;
                 _key := Some (fst found);
                 _value :=
                   if _keyOnly cursor then _value cursor
                   else Some (snd found);
                 _gotValue := true |}, true)
      end
  | S count' =>
      try! foundRecord' <- select records position foundRecord;
      match foundRecord' with
      | None =>
          Ok ({| _source := _source cursor;
                 _direction := _direction cursor;
                 _range := _range cursor;
                 _keyOnly := _keyOnly cursor;
                 _position := _position cursor;
                 _objectStorePosition :=
                   if isIndex (_source cursor) then None
                   else _objectStorePosition cursor;
                 _key := _key cursor;
                 _value :=
                   if _keyOnly cursor then _value cursor else None;
                 _gotValue := _gotValue cursor |}, false)
      | Some found =>
          loop records count' (Some (fst found))
            (if isIndex (_source cursor) then Some (snd found)
             else objectStorePosition)
            foundRecord'
      end
  end.

End IterateCursor.

(** [iterateCursor(cursor, key, primaryKey, count = 1)] over the records
    the backend lists for the cursor's source. *)
Definition iterateCursor (records : list Record_) (cursor : IDBCursor)
  (key : option (Operand)) (primaryKey : option Key)
  (count : option nat) : Res (IDBCursor * bool) :=
  if match primaryKey with
     | None => false
     | Some _ =>
         negb (isIndex (_source cursor)
               && match _direction cursor with
                  | next | prev => true
                  | _ => false
                  end)
     end
  then Throw AssertionError
  else
    loop cursor key primaryKey records
      (match count with Some n => n | None => 1%nat end)
      (_position cursor) (_objectStorePosition cursor) None.

Definition setGotValue (c : IDBCursor) (b : bool) : IDBCursor :=
  {| _source := _source c; _direction := _direction c; _range := _range c;
     _keyOnly := _keyOnly c; _position := _position c;
     _objectStorePosition := _objectStorePosition c; _key := _key c;
     _value := _value c; _gotValue := b |}.

(** What the getter [cursor[_effectiveObjectStore]] hands back: the
    position of a cursor over a store, the object store position of one
    over an index.  That is a key object, a stored value, or
    [undefined]; it is never a store handle. *)
Inductive Slot :=
| SUndefined
| SKey (key : Key)
| SValue (value : Value).

Definition _effectiveObjectStore (this : IDBCursor) : Slot :=
  match _source this with
  | IDBObjectStore =>
      match _position this with
      | Some key => SKey key
      | None => SUndefined
      end
  | IDBIndex =>
      match _objectStorePosition this with
      | Some value => SValue value
      | None => SUndefined
      end
  end.

(** [assertObjectStore(store)] on such an argument.  The arguments of
    [core.opSync] are evaluated before the call:
    [store[_store].database[_name]] throws on [undefined] at
    [store[_store]], and on a key object or a stored value at
    [.database], since neither has a [_store] slot (the symbol is private
    to the file).  The backend is not reached. *)
Definition assertObjectStore (store : Slot) : Res unit :=
  match store with
  | SUndefined => Throw TypeError
  | SKey _ => Throw TypeError
  | SValue _ => Throw TypeError
  end.

(** [assertCursor(cursor)]: first the check on the effective object
    store, then the one on [cursor[_source]], a backend call taken as
    given in [assertSource]. *)
Definition assertCursor (assertSource : IDBCursor -> Res unit)
  (cursor : IDBCursor) : Res unit :=
  try! _ <- assertObjectStore (_effectiveObjectStore cursor);
  assertSource cursor.

(** [IDBCursor.prototype.advance(count)], [count] being what the script
    passed (an integer).  The checks throw to the caller.  Past them the
    request is re-armed and the operation is handed to
    [asynchronouslyExecuteRequest], which calls it at once and catches
    what it throws: the result gives the operation's outcome. *)
Definition advance (assertSource : IDBCursor -> Res unit)
  (records : list Record_) (state : TransactionState)
  (this : IDBCursor) (count : Z) : Res (Res (IDBCursor * bool)) :=
  if (count <? 0) || (count >? 4294967295) then Throw TypeError
  else if count =? 0 then Throw TypeError
  else if negb (TransactionState_eqb state active)
  then Throw (DOMException TransactionInactiveError)
  else
    try! _ <- assertCursor assertSource this;
    if negb (_gotValue this) then Throw (DOMException InvalidStateError)
    else
      let this := setGotValue this false in
      Ok (iterateCursor records this
            (Some (ORaw (VNumber (Some (ofZ count))))) None None).

(** The cursor-step procedure run [count] times with no target key. *)
Definition stepTimes (records : list Record_) (cursor : IDBCursor)
  (count : nat) : Res (IDBCursor * bool) :=
  iterateCursor records cursor None None (Some count).

End Cursor.

(** ** Transactions and the request pipeline *)

Module Txn.

(** A request object.  [_processed] tells whether the current
    [_processedDeferred] has been resolved.  [_transaction] is a
    reference to the transaction or [null]. *)
Inductive TransactionRef := null | the_transaction.

Record IDBRequest := {
  _processed : bool;
  _done : bool;
  _result : option Value;
  _error : option Exn;
  _transaction : TransactionRef
}.

(** Modelled from the spec: [webidl.illegalConstructor] and
    [webidl.createBranded] are not part of the sources at hand.
    Following the design note on internal factories, constructing a
    request yields a usable instance whose slots hold the class's field
    initialisers. *)
Definition new_IDBRequest : IDBRequest :=
  {| _processed := false; _done := false; _result := None;
     _error := None; _transaction := null |}.

(** The backend calls the transaction procedures make through
    [core.opSync].  The calls an operation makes on its own account are
    part of what the operation gives, and are not followed. *)
Inductive Op :=
| op_indexeddb_transaction_abort
| op_indexeddb_transaction_commit.

(** What can be observed from outside, in order of occurrence: the
    notifications dispatched on requests and on the transaction, the
    backend calls, and the exceptions that end an [async] body. *)
Inductive Event :=
| success_event (request : nat)
| error_event (request : nat)
| abort_event
| complete_event
| backend_call (op : Op)
| unhandled_rejection (e : Exn).

(** An [async] function body suspended at an [await]. *)
Inductive Task :=
| resume_request (request : nat) (result : option Value)
| resume_commit (index : nat).

(** One transaction, the requests that exist, the suspended bodies and
    the observations so far. *)
Record World := {
  _state : TransactionState;
  _mode : IDBTransactionMode;
  _txError : option Exn;
  _requestList : list nat;
  requests : gmap nat IDBRequest;
  nextRequest : nat;
  suspended : list Task;
  trace : list Event
}.

(** Modelled from the spec: as for requests, a transaction is built with
    its field initialisers ([_state = "active"], [_requestList = []]). *)
Definition new_World (mode : IDBTransactionMode) : World :=
  {| _state := active; _mode := mode; _txError := None;
     _requestList := []; requests := ∅; nextRequest := 0%nat;
     suspended := []; trace := [] |}.

Definition with_state (s : TransactionState) (w : World) : World :=
  {| _state := s; _mode := _mode w; _txError := _txError w;
     _requestList := _requestList w; requests := requests w;
     nextRequest := nextRequest w; suspended := suspended w;
     trace := trace w |}.

Definition with_txError (e : option Exn) (w : World) : World :=
  {| _state := _state w; _mode := _mode w; _txError := e;
     _requestList := _requestList w; requests := requests w;
     nextRequest := nextRequest w; suspended := suspended w;
     trace := trace w |}.

Definition with_requestList (l : list nat) (w : World) : World :=
  {| _state := _state w; _mode := _mode w; _txError := _txError w;
     _requestList := l; requests := requests w;
     nextRequest := nextRequest w; suspended := suspended w;
     trace := trace w |}.

Definition with_requests (m : gmap nat IDBRequest) (w : World) : World :=
  {| _state := _state w; _mode := _mode w; _txError := _txError w;
     _requestList := _requestList w; requests := m;
     nextRequest := nextRequest w; suspended := suspended w;
     trace := trace w |}.

Definition with_nextRequest (n : nat) (w : World) : World :=
  {| _state := _state w; _mode := _mode w; _txError := _txError w;
     _requestList := _requestList w; requests := requests w;
     nextRequest := n; suspended := suspended w;
     trace := trace w |}.

Definition with_suspended (l : list Task) (w : World) : World :=
  {| _state := _state w; _mode := _mode w; _txError := _txError w;
     _requestList := _requestList w; requests := requests w;
     nextRequest := nextRequest w; suspended := l;
     trace := trace w |}.

Definition with_trace (l : list Event) (w : World) : World :=
  {| _state := _state w; _mode := _mode w; _txError := _txError w;
     _requestList := _requestList w; requests := requests w;
     nextRequest := nextRequest w; suspended := suspended w;
     trace := l |}.

(** *** Imperative code: state and exceptions *)

Definition M (A : Type) : Type := World -> Res A * World.

Definition ret {A} (a : A) : M A := fun w => (Ok a, w).

Definition throw {A} (e : Exn) : M A := fun w => (Throw e, w).

Definition bind {A B} (c : M A) (k : A -> M B) : M B :=
  fun w =>
    match c w with
    | (Ok a, w') => k a w'
    | (Throw e, w') => (Throw e, w')
    end.

Definition gets {A} (f : World -> A) : M A := fun w => (Ok (f w), w).

Definition modify (f : World -> World) : M unit := fun w => (Ok tt, f w).

Declare Scope txn_scope.
Delimit Scope txn_scope with txn.
Notation "'let!' x ':=' c 'in' k" := (bind c (fun x => k))
  (at level 10, x name, c at level 100, k at level 200) : txn_scope.
Notation "c '>>' k" := (bind c (fun _ => k))
  (at level 90, right associativity) : txn_scope.
Local Open Scope txn_scope.

Definition when (b : bool) (c : M unit) : M unit :=
  if b then c else ret tt.

Fixpoint forEach {A} (l : list A) (body : A -> M unit) : M unit :=
  match l with
  | [] => ret tt
  | x :: rest => body x >> forEach rest body
  end.

Definition log (ev : Event) : M unit :=
  modify (fun w => with_trace (trace w ++ [ev]) w).

(** An [async] arrow function called at once: what its body throws
    rejects the promise it returns, and nobody looks at that promise. *)
Definition async (body : M unit) : M unit :=
  fun w =>
    match body w with
    | (Ok _, w') => (Ok tt, w')
    | (Throw e, w') => (Ok tt, with_trace (trace w' ++ [unhandled_rejection e]) w')
    end.

Definition suspend (t : Task) : M unit :=
  modify (fun w => with_suspended (suspended w ++ [t]) w).

(** Updates of a request's slots. *)
Definition update (request : nat) (f : IDBRequest -> IDBRequest) : M unit :=
  modify (fun w => with_requests (alter f request (requests w)) w).

Definition resolve (request : nat) : M unit :=
  update request (fun r =>
    {| _processed := true; _done := _done r; _result := _result r;
       _error := _error r; _transaction := _transaction r |}).

Definition set_done (request : nat) (b : bool) : M unit :=
  update request (fun r =>
    {| _processed := _processed r; _done := b; _result := _result r;
       _error := _error r; _transaction := _transaction r |}).

Definition set_result (request : nat) (v : option Value) : M unit :=
  update request (fun r =>
    {| _processed := _processed r; _done := _done r; _result := v;
       _error := _error r; _transaction := _transaction r |}).

Definition set_error (request : nat) (e : option Exn) : M unit :=
  update request (fun r =>
    {| _processed := _processed r; _done := _done r; _result := _result r;
       _error := e; _transaction := _transaction r |}).

(** [request[_transaction][...]]: reading a slot off [null] throws. *)
Definition request_transaction (request : nat) : M unit :=
  let! r := gets (fun w => requests w !! request) in
  match r with
  | Some {| _transaction := the_transaction |} => ret tt
  | _ => throw TypeError
  end.

Definition request_error (request : nat) : M (option Exn) :=
  gets (fun w => match requests w !! request with
                 | Some r => _error r
                 | None => None
                 end).

(** [Array.prototype.findIndex] and [Array.prototype.slice]: [slice]
    builds a new array and leaves its receiver as it is. *)
Fixpoint findIndex (p : nat -> bool) (l : list nat) (i : Z) : Z :=
  match l with
  | [] => -1
  | x :: rest => if p x then i else findIndex p rest (i + 1)
  end.

Definition relativeIndex (len k : Z) : Z :=
  if k <? 0 then Z.max (len + k) 0 else Z.min k len.

Definition slice (l : list nat) (start stop : Z) : list nat :=
  let len := Z.of_nat (List.length l) in
  let from := relativeIndex len start in
  let to := relativeIndex len stop in
  firstn (Z.to_nat (to - from)) (skipn (Z.to_nat from) l).

Section Pipeline.

(** The application's listeners: run on a dispatched event, they may
    call back into the coordinator, and tell whether the event was
    cancelled. *)
Variable listeners : Event -> World -> World * bool.

(** The backend behind [core.opSync]. *)
Variable opSync : Op -> Res unit.

Definition dispatchEvent (ev : Event) : M bool :=
  log ev >>
  fun w => let '(w', canceled) := listeners ev w in (Ok canceled, w').

Definition callOp (op : Op) : M unit :=
  log (backend_call op) >>
  fun w => (opSync op, w).

(** The body of the loop over the request list in [abortTransaction]. *)
Definition abortRequest (request : nat) : M unit :=
  resolve request >>
  set_done request true >>
  set_result request None >>
  set_error request (Some (DOMException AbortError)) >>
  let! _ := dispatchEvent (error_event request) in
  ret tt.

(** [abortTransaction(transaction, error)].  Once the state is
    ["finished"] no call can add to the request list, so the loop
    runs over the list as it stands. *)
Definition abortTransaction (error : option Exn) : M unit :=
  callOp op_indexeddb_transaction_abort >>
  modify (with_state finished) >>
  when (isSome error) (modify (with_txError error)) >>
  let! list := gets _requestList in
  forEach list abortRequest >>
  let! _ := dispatchEvent abort_event in
  ret tt.

(** The end of the commit body, past the loop over the requests.  A
    version-change transaction has no [_request] slot, so the last
    assignment throws. *)
Definition finishCommit : M unit :=
  callOp op_indexeddb_transaction_commit >>
  let! state := gets _state in
  if negb (TransactionState_eqb state committing) then ret tt
  else
    modify (with_state finished) >>
    let! _ := dispatchEvent complete_event in
    let! mode := gets _mode in
    if IDBTransactionMode_eqb mode versionchange then throw TypeError
    else ret tt.

(** The commit body from the [index]-th turn of its loop: it awaits
    the next request's promise, or leaves the loop. *)
Definition commitFrom (index : nat) : M unit :=
  let! list := gets _requestList in
  match list !! index with
  | Some _ => suspend (resume_commit index)
  | None => finishCommit
  end.

Definition commitTransaction : M unit :=
  modify (with_state committing) >>
  async (commitFrom 0).

(** Lines 489 to 539: what the request body does once the operation
    has returned ([errored = false]) or thrown outside of
    ["committing"]. *)
Definition settle (request : nat) (outcome : Res (option Value)) : M unit :=
  resolve request >>
  let! list := gets _requestList in
  let _ := slice list (findIndex (Nat.eqb request) list 0) 1 in
  set_done request true >>
  match outcome with
  | Throw e =>
      set_result request None >>
      set_error request (Some e) >>
      request_transaction request >>
      let! state := gets _state in
      when (TransactionState_eqb state inactive) (modify (with_state active)) >>
      let! canceled := dispatchEvent (error_event request) in
      let! state := gets _state in
      if TransactionState_eqb state active then
        modify (with_state inactive) >>
        if negb canceled then
          let! error := request_error request in
          abortTransaction error
        else
          let! list := gets _requestList in
          when (List.length list =? 0)%nat commitTransaction
      else ret tt
  | Ok result =>
      set_result request result >>
      set_error request None >>
      request_transaction request >>
      let! state := gets _state in
      when (TransactionState_eqb state inactive) (modify (with_state active)) >>
      let! _ := dispatchEvent (success_event request) in
      let! state := gets _state in
      if TransactionState_eqb state active then
        modify (with_state inactive) >>
        let! list := gets _requestList in
        when (List.length list =? 0)%nat commitTransaction
      else ret tt
  end.

(** The request body up to its [await]: [operation()] is called at
    once.  If it throws, the [catch] clause and all that follows run
    before [asynchronouslyExecuteRequest] returns. *)
Definition requestBody (request : nat) (operation : Res (option Value))
  : M unit :=
  match operation with
  | Ok result => suspend (resume_request request result)
  | Throw e =>
      let! state := gets _state in
      if TransactionState_eqb state committing
      then abortTransaction (Some e)
      else settle request (Throw e)
  end.

Definition newRequest : M nat :=
  let! id := gets nextRequest in
  modify (fun w =>
    with_nextRequest (S id)
      (with_requests (<[id := new_IDBRequest]> (requests w)) w)) >>
  ret id.

(** [asynchronouslyExecuteRequest(source, operation, request)], the
    source's transaction being the one of this world and [operation]
    what calling the operation gives. *)
Definition asynchronouslyExecuteRequest (operation : Res (option Value))
  (request : option nat) : M nat :=
  let! state := gets _state in
  if negb (TransactionState_eqb state active) then throw AssertionError
  else
    let! request := match request with
                    | Some r => ret r
                    | None => newRequest
                    end in
    modify (fun w => with_requestList (_requestList w ++ [request]) w) >>
    async (requestBody request operation) >>
    ret request.

(** [IDBTransaction.prototype.commit] and [abort]. *)
Definition commit : M unit :=
  let! state := gets _state in
  if negb (TransactionState_eqb state active)
  then throw (DOMException InvalidStateError)
  else commitTransaction.

Definition abort : M unit :=
  let! state := gets _state in
  if TransactionState_eqb state committing
     || TransactionState_eqb state finished
  then throw (DOMException InvalidStateError)
  else
    modify (with_state inactive) >>
    abortTransaction None.

(** *** Resuming suspended bodies *)

Definition isProcessed (w : World) (request : nat) : bool :=
  match requests w !! request with
  | Some r => _processed r
  | None => false
  end.

(** A body can go on when what it awaits is settled: the operation's
    value at once, a request's promise once resolved. *)
Definition ready (w : World) (t : Task) : bool :=
  match t with
  | resume_request _ _ => true
  | resume_commit index =>
      match _requestList w !! index with
      | Some request => isProcessed w request
      | None => false
      end
  end.

Definition resume (t : Task) : M unit :=
  match t with
  | resume_request request result => async (settle request (Ok result))
  | resume_commit index => async (commitFrom (S index))
  end.

Fixpoint takeReady (w : World) (before after : list Task)
  : option (Task * list Task) :=
  match after with
  | [] => None
  | t :: rest =>
      if ready w t then Some (t, before ++ rest)
      else takeReady w (before ++ [t]) rest
  end.

(** One turn: the first body that can go on does.  Bodies are taken in
    the order in which they were suspended; the engine takes them in the
    order in which what they await was settled.  The runs below have at
    most one body ready at a time, and the lemmas on a single body
    ([settle_never_commits], [resumed_body_stores_result]) do not depend
    on the order. *)
Definition turn (w : World) : option World :=
  match takeReady w [] (suspended w) with
  | None => None
  | Some (t, rest) => Some (snd (resume t (with_suspended rest w)))
  end.

(** Turns until nothing can go on, at most [fuel] of them. *)
Fixpoint drain (fuel : nat) (w : World) : World :=
  match fuel with
  | O => w
  | S fuel' =>
      match turn w with
      | None => w
      | Some w' => drain fuel' w'
      end
  end.

End Pipeline.

(** No listener registered, and a backend whose calls succeed. *)
Definition noListeners (ev : Event) (w : World) : World * bool := (w, false).
Definition opOk (op : Op) : Res unit := Ok tt.

(** Listeners that call nothing back: all they do is cancel the events
    [cancels] picks ([preventDefault]). *)
Definition passiveListeners (cancels : Event -> bool) (ev : Event) (w : World)
  : World * bool := (w, cancels ev).

(** A request as the abort loop leaves it, and as the request body
    leaves it after an operation that returned [v]. *)
Definition markAborted (r : IDBRequest) : IDBRequest :=
  {| _processed := true; _done := true; _result := None;
     _error := Some (DOMException AbortError);
     _transaction := _transaction r |}.

Definition markSucceeded (v : option Value) (r : IDBRequest) : IDBRequest :=
  {| _processed := true; _done := true; _result := v;
     _error := None; _transaction := _transaction r |}.

(** The transaction can still take requests or be resumed. *)
Definition openState (w : World) : Prop :=
  _state w = active \/ _state w = inactive.

(** Every suspended body is the body of a queued request. *)
Definition requestBodiesOnly (w : World) : Prop :=
  Forall (fun t => match t with
                   | resume_request r _ => In r (_requestList w)
                   | resume_commit _ => False
                   end) (suspended w).

(** Observations that are neither a commit nor an abort. *)
Definition quiet (ev : Event) : Prop :=
  match ev with
  | success_event _ | unhandled_rejection TypeError => True
  | _ => False
  end.

(** [c] keeps the invariant [I]: run from a world where it holds, it
    leaves a world where it holds, whether it returns or throws. *)
Definition keeps (I : World -> Prop) {A} (c : M A) : Prop :=
  forall w, I w -> I (snd (c w)).

(** The queue is [L], the suspended bodies are [S], and the transaction
    is not committing. *)
Definition steady (L : list nat) (S : list Task) (w : World) : Prop :=
  _requestList w = L /\ suspended w = S /\ _state w <> committing.

(** The world a call leaves behind. *)
Definition exec {A} (c : M A) (w : World) : World := snd (c w).

End Txn.

(** ** Scenarios *)

Module Scenario.

Definition num (z : Z) : Value := VNumber (Some (ofZ z)).
Definition key (z : Z) : Key := KNumber (ofZ z).

(** *** Cursor over a store holding the keys 1 to 6 *)

Definition records : list Cursor.Record_ :=
  List.map (fun z => (key z, num (100 + z))) [1; 2; 3; 4; 5; 6].

Definition unbounded : KeyRange.IDBKeyRange :=
  KeyRange.createRange None None false false.

(** A forward cursor on the record with key [z]. *)
Definition cursorAt (z : Z) : Cursor.IDBCursor :=
  {| Cursor._source := Cursor.IDBObjectStore;
     Cursor._direction := Cursor.next;
     Cursor._range := unbounded;
     Cursor._keyOnly := false;
     Cursor._position := Some (key z);
     Cursor._objectStorePosition := None;
     Cursor._key := Some (key z);
     Cursor._value := Some (num (100 + z));
     Cursor._gotValue := true |}.

(** *** A read-write transaction with one request in flight *)

Import Txn.

(** [store.get(...)] on a fresh transaction, the backend answering 7. *)
Definition oneRequest : World :=
  exec (asynchronouslyExecuteRequest noListeners opOk (Ok (Some (num 7))) None)
       (new_World readwrite).

(** The same with a request object whose [_transaction] slot refers to
    the transaction, handed in by the caller. *)
Definition wired : IDBRequest :=
  {| _processed := false; _done := false; _result := None;
     _error := None; _transaction := the_transaction |}.

Definition oneWiredRequest : World :=
  exec (asynchronouslyExecuteRequest noListeners opOk (Ok (Some (num 7))) (Some 0%nat))
       (with_nextRequest 1 (with_requests {[ 0%nat := wired ]} (new_World readwrite))).

(** A backend whose commit call throws. *)
Definition commitThrows (op : Op) : Res unit :=
  match op with
  | op_indexeddb_transaction_commit => Throw (BackendError 1)
  | _ => Ok tt
  end.

End Scenario.

(** ** Further operations *)

(** *** keyToValue *)

Module KeyValue.

(** [keyToValue(key)].  An array key becomes a new array object: [next]
    is the first identity not yet in use, and the result carries the
    first identity free afterwards.  A binary key becomes the
    [ArrayBuffer] behind [new Uint8Array(key.value)]. *)
Fixpoint keyToValue_from (key : Key) (next : nat) {struct key} : Value * nat :=
  match key with
  | KNumber v => (VNumber (Some v), next)
  | KString v => (VString v, next)
  | KDate v => (VDate (Some v), next)
  | KBinary (ArrayBuffer bytes) => (VArrayBuffer bytes, next)
  | KBinary (Uint8Array bytes) => (VArrayBuffer bytes, next)
  | KArray keys =>
      let '(entries, next') :=
        (fix each (rest : list Key) (next : nat) {struct rest}
           : list Value * nat :=
           match rest with
           | [] => ([], next)
           | k :: rest' =>
               let '(v, n1) := keyToValue_from k next in
               let '(vs, n2) := each rest' n1 in
               (v :: vs, n2)
           end) keys (S next) in
      (VArray next entries, next')
  end.

(** The [map] over the entries of an array key, named. *)
Fixpoint keysToValues_from (keys : list Key) (next : nat) : list Value * nat :=
  match keys with
  | [] => ([], next)
  | k :: rest =>
      let '(v, n1) := keyToValue_from k next in
      let '(vs, n2) := keysToValues_from rest n1 in
      (v :: vs, n2)
  end.

Definition keyToValue (key : Key) : Value := fst (keyToValue_from key 0).

(** The key with every binary part held as an [ArrayBuffer]. *)
Fixpoint asArrayBuffers (key : Key) : Key :=
  match key with
  | KBinary (Uint8Array bytes) => KBinary (ArrayBuffer bytes)
  | KArray keys => KArray (List.map asArrayBuffers keys)
  | _ => key
  end.

(** The loop over the entries in [valueToKey], named. *)
Fixpoint valuesToKeys_seen (entries : list Value) (seen : list nat)
  (keys : list Key) : option Key * list nat :=
  match entries with
  | [] => (Some (KArray keys), seen)
  | entry :: rest =>
      match valueToKey_seen entry seen with
      | (None, seen') => (None, seen')
      | (Some key, seen') => valuesToKeys_seen rest seen' (keys ++ [key])
      end
  end.

End KeyValue.

(** The place of a key type in the [ta !== tb] cascade. *)
Definition typeRank (t : KeyType) : nat :=
  match t with
  | date_t => 0
  | number_t => 1
  | string_t => 2
  | binary_t => 3
  | array_t => 4
  end.

(** *** IDBFactory.cmp *)

Module Factory.

Definition cmp (first second : Value) : Res Z :=
  match valueToKey first with
  | None => Throw (DOMException DataError)
  | Some a =>
      match valueToKey second with
      | None => Throw (DOMException DataError)
      | Some b => Ok (compareTwoKeys a b)
      end
  end.

End Factory.

(** *** valueToKeyRange and the store operations that take a query *)

Module StoreOps.
Import KeyRange ObjectStore.

(** What a query argument can be: a key range object, [undefined] or
    [null], or any other value. *)
Inductive Query :=
| QRange (range : IDBKeyRange)
| QNull
| QValue (value : Value).

Definition valueToKeyRange (value : Query) (nullDisallowed : bool)
  : Res IDBKeyRange :=
  match value with
  | QRange range => Ok range
  | QNull =>
      if nullDisallowed then Throw (DOMException DataError)
      else Ok (createRange None None false false)
  | QValue v =>
      match valueToKey v with
      | None => Throw (DOMException DataError)
      | Some key => Ok (createRange (Some key) (Some key) false false)
      end
  end.

Section Handles.

Variable assertObjectStore : IDBObjectStore -> Res unit.

(** [IDBObjectStore.prototype.delete]: the range of the deferred
    [deleteRecordsFromObjectStore(store, range)]. *)
Definition delete (this : IDBObjectStore) (query : Query) : Res IDBKeyRange :=
  try! _ <- assertObjectStore this;
  if negb (TransactionState_eqb (_state this) active)
  then Throw (DOMException TransactionInactiveError)
  else if IDBTransactionMode_eqb (_mode this) readonly
  then Throw (DOMException ReadOnlyError)
  else valueToKeyRange query true.

(** [IDBObjectStore.prototype.clear]. *)
Definition clear (this : IDBObjectStore) : Res unit :=
  try! _ <- assertObjectStore this;
  if negb (TransactionState_eqb (_state this) active)
  then Throw (DOMException TransactionInactiveError)
  else if IDBTransactionMode_eqb (_mode this) readonly
  then Throw (DOMException ReadOnlyError)
  else Ok tt.

(** [IDBObjectStore.prototype.get]: the range of the deferred
    [retrieveValueFromObjectStore(store, range)]. *)
Definition get (this : IDBObjectStore) (query : Query) : Res IDBKeyRange :=
  try! _ <- assertObjectStore this;
  if negb (TransactionState_eqb (_state this) active)
  then Throw (DOMException TransactionInactiveError)
  else valueToKeyRange query true.

End Handles.

Section StoreRecord.

(** The index descriptions the backend hands back, the backend calls and
    the key-path helpers are taken as given. *)
Variable Index : Type.
Variable injectKeyIntoValueUsingKeyPath : Value -> Key -> KeyPath -> Res Value.
Variable op_add_or_put_records : Value -> option Key -> bool -> Res (list Index).
Variable extractKeyFromValueUsingKeyPath : Value -> Index -> Res Extracted.
Variable op_handle_index : Index -> option Key -> Res unit.

(** The loop over the indexes: an index whose key is [null] or
    [_failure] is skipped; what the extraction throws is swallowed, and
    the backend is then called with [indexKey] still [undefined]. *)
Fixpoint handleIndexes (value : Value) (indexes : list Index) : Res unit :=
  match indexes with
  | [] => Ok tt
  | index :: rest =>
      match extractKeyFromValueUsingKeyPath value index with
      | Ok (extracted None) | Ok _failure => handleIndexes value rest
      | Ok (extracted (Some indexKey)) =>
          try! _ <- op_handle_index index (Some indexKey);
          handleIndexes value rest
      | Throw _ =>
          try! _ <- op_handle_index index None;
          handleIndexes value rest
      end
  end.

(** [storeRecordIntoObjectStore(store, value, key, noOverwrite)]: the
    store afterwards (its generator is an object, changed in place even
    when a later step throws) and the key returned. *)
Definition storeRecordIntoObjectStore (store : Store) (value : Value)
  (key : option Key) (noOverwrite : bool) : Store * Res (option Key) :=
  let prepared : Store * Res (Value * option Key) :=
    match keyGenerator store with
    | None => (store, Ok (value, key))
    | Some generator =>
        match key with
        | None =>
            match KeyGenerator.generateKey generator with
            | Throw e => (store, Throw e)
            | Ok (generated, generator') =>
                let store' := {| keyPath := keyPath store;
                                 keyGenerator := Some generator' |} in
                match keyPath store with
                | None => (store', Ok (value, Some generated))
                | Some kp =>
                    (store',
                     try! value' <- injectKeyIntoValueUsingKeyPath value generated kp;
                     Ok (value', Some generated))
                end
            end
        | Some k =>
            ({| keyPath := keyPath store;
                keyGenerator := Some (KeyGenerator.possiblyUpdate generator k) |},
             Ok (value, key))
        end
    end in
  (fst prepared,
   try! vk <- snd prepared;
   try! indexes <- op_add_or_put_records (fst vk) (snd vk) noOverwrite;
   try! _ <- handleIndexes (fst vk) indexes;
   Ok (snd vk)).

End StoreRecord.

End StoreOps.

(** *** IDBCursor.continue *)

Module CursorOps.
Import Cursor.

Definition forward (d : IDBCursorDirection) : bool :=
  match d with next | nextunique => true | _ => false end.

Definition backward (d : IDBCursorDirection) : bool :=
  match d with prev | prevunique => true | _ => false end.

(** The checks of [continue(key)] on a key that was given: it must
    convert, and lie past the position in the cursor's direction.  Each
    comparison is made before the direction is looked at. *)
Definition checkContinueKey (this : IDBCursor) (key : Value) : Res Key :=
  match valueToKey key with
  | None => Throw (DOMException DataError)
  | Some k =>
      try! c <- compareOpt (Some k) (asOperand (_position this));
      if negb (c =? 1) && forward (_direction this)
      then Throw (DOMException DataError)
      else
        try! c' <- compareOpt (Some k) (asOperand (_position this));
        if negb (c' =? -1) && backward (_direction this)
        then Throw (DOMException DataError)
        else Ok k
  end.

(** [IDBCursor.prototype.continue(key)]; as for [advance], the outer
    result is what the call throws and the inner one the outcome of the
    operation handed to [asynchronouslyExecuteRequest]. *)
Definition continue (assertSource : IDBCursor -> Res unit)
  (records : list Record_) (state : TransactionState)
  (this : IDBCursor) (key : option Value) : Res (Res (IDBCursor * bool)) :=
  if negb (TransactionState_eqb state active)
  then Throw (DOMException TransactionInactiveError)
  else
    try! _ <- assertCursor assertSource this;
    try! key <- match key with
                | None => Ok None
                | Some v => try! k <- checkContinueKey this v; Ok (Some k)
                end;
    let this := setGotValue this false in
    Ok (iterateCursor records this (option_map OKey key) None None).

(** The cursor as a step that finds nothing leaves it. *)
Definition exhausted (c : IDBCursor) : IDBCursor :=
  {| _source := _source c; _direction := _direction c; _range := _range c;
     _keyOnly := _keyOnly c; _position := _position c;
     _objectStorePosition :=
       if isIndex (_source c) then None else _objectStorePosition c;
     _key := _key c;
     _value := if _keyOnly c then _value c else None;
     _gotValue := _gotValue c |}.

End CursorOps.

(** ** Predicates used in the statements *)

(** The three results a comparison can have. *)
Definition isSign (z : Z) : Prop := z = -1 \/ z = 0 \/ z = 1.

(** Every array identity in [seen] is below [n]. *)
Definition below (n : nat) (seen : list nat) : Prop :=
  forall i, In i seen -> (i < n)%nat.

(** [keyToValue] then [valueToKey] at the key [k], whatever the first
    free identity and the set of arrays already seen: the conversion
    gives [k] back, binary parts as [ArrayBuffer]s, and the identities
    handed out stay fresh. *)
Definition roundTripsAt (k : Key) : Prop :=
  forall n seen, below n seen ->
    (n <= snd (KeyValue.keyToValue_from k n))%nat
    /\ exists seen',
         valueToKey_seen (fst (KeyValue.keyToValue_from k n)) seen
         = (Some (KeyValue.asArrayBuffers k), seen')
         /\ below (snd (KeyValue.keyToValue_from k n)) seen'.

(** A range whose lower bound does not compare above its upper bound. *)
Definition wellFormed (r : KeyRange.IDBKeyRange) : Prop :=
  match KeyRange._lowerBound r, KeyRange._upperBound r with
  | Some lower, Some upper => compareTwoKeys lower upper <> 1
  | _, _ => True
  end.

(** The key [k] lies past the cursor's position, in its direction. *)
Definition pastPosition (c : Cursor.IDBCursor) (k : Key) : Prop :=
  forall pos, Cursor._position c = Some pos ->
    compareTwoKeys k pos = if CursorOps.forward (Cursor._direction c) then 1 else -1.

(** What is observed when the suspended body of a request goes on after
    an operation that returned: the success notification, or the
    rejection of the body where the request's [_transaction] slot is
    [null]. *)
Definition settledEvent (w : Txn.World) (request : nat) : Txn.Event :=
  match Txn.requests w !! request with
  | Some {| Txn._transaction := Txn.the_transaction |} => Txn.success_event request
  | _ => Txn.unhandled_rejection TypeError
  end.

(** The suspended body of a request, given with the operation's result. *)
Definition bodyOf (b : nat * option Value) : Txn.Task :=
  Txn.resume_request (fst b) (snd b).

(** The [_transaction] slot of a request. *)
Definition txOf (w : Txn.World) (r : nat) : option Txn.TransactionRef :=
  Txn._transaction <$> Txn.requests w !! r.

(** * Properties *)

(** ** The embedding on small inputs *)

Example compare_cross_type :
  compareTwoKeys (KArray []) (KBinary (Uint8Array [])) = 1
  /\ compareTwoKeys (KBinary (Uint8Array [])) (KString "z") = 1
  /\ compareTwoKeys (KString "") (Scenario.key 5) = 1
  /\ compareTwoKeys (Scenario.key (-5)) (KDate 9) = 1
  /\ compareTwoKeys (KDate 9) (KArray []) = -1.
Proof. repeat split. Qed.

Example compare_same_type :
  compareTwoKeys (Scenario.key 1) (Scenario.key 2) = -1
  /\ compareTwoKeys (KNumber PosInfinity) (Scenario.key 2) = 1
  /\ compareTwoKeys (KNumber (Finite (1 # 2))) (KNumber (Finite (2 # 4))) = 0
  /\ compareTwoKeys (KString "ab") (KString "b") = -1
  /\ compareTwoKeys (KArray [Scenario.key 1]) (KArray [Scenario.key 1; KDate 0]) = -1
  /\ compareTwoKeys (KArray [Scenario.key 2]) (KArray [Scenario.key 1; KDate 0]) = 1.
Proof. repeat split. Qed.

Example typed_array_stringifies :
  bufferToString (Uint8Array [Byte.x01; Byte.xff; Byte.x0a]) = "1,255,10"%string.
Proof. reflexivity. Qed.

Example valueToKey_examples :
  valueToKey (VNumber None) = None
  /\ valueToKey (VArray 0 [Scenario.num 1; VString "a"])
     = Some (KArray [Scenario.key 1; KString "a"])
  /\ valueToKey (VArray 0 [Scenario.num 1; VOther]) = None
  /\ valueToKey (VArray 0 [VArray 1 []; VArray 1 []]) = None
  /\ valueToKey (VArray 0 [VArray 1 []; VArray 2 []])
     = Some (KArray [KArray []; KArray []]).
Proof. repeat split. Qed.

Example three_generated_keys :
  KeyGenerator.run KeyGenerator.initial
    [KeyGenerator.GenerateKey; KeyGenerator.GenerateKey; KeyGenerator.GenerateKey]
  = ([1; 2; 3; 4], [Scenario.key 1; Scenario.key 2; Scenario.key 3]).
Proof. reflexivity. Qed.

Example possiblyUpdate_raises_floor :
  KeyGenerator.run KeyGenerator.initial
    [KeyGenerator.GenerateKey;
     KeyGenerator.PossiblyUpdate (KNumber (Finite (7 # 2)));
     KeyGenerator.PossiblyUpdate (Scenario.key 2);
     KeyGenerator.PossiblyUpdate (KNumber NegInfinity);
     KeyGenerator.GenerateKey]
  = ([1; 2; 4; 4; 4; 5], [Scenario.key 1; Scenario.key 4]).
Proof. reflexivity. Qed.

Example backward_cursor_over_range :
  let range := KeyRange.createRange (Some (Scenario.key 2)) (Some (Scenario.key 5))
                 false false in
  let cursor := Cursor.createCursor Cursor.prev Cursor.IDBObjectStore range true in
  match Cursor.iterateCursor Scenario.records cursor None None None with
  | Ok (c1, true) =>
      match Cursor.iterateCursor Scenario.records c1 None None None with
      | Ok (c2, true) => (Cursor._key c1, Cursor._key c2)
      | _ => (None, None)
      end
  | _ => (None, None)
  end = (Some (Scenario.key 5), Some (Scenario.key 4)).
Proof. reflexivity. Qed.

(** ** Key comparison *)

Section KeyInduction.

Variable P : Key -> Prop.
Hypothesis HNumber : forall v, P (KNumber v).
Hypothesis HDate : forall v, P (KDate v).
Hypothesis HString : forall v, P (KString v).
Hypothesis HBinary : forall v, P (KBinary v).
Hypothesis HArray : forall l, Forall P l -> P (KArray l).

(** Induction on keys with the hypothesis for every element of an
    array key. *)
Lemma Key_nested_ind (k : Key) : P k.
Proof.
  revert k. fix IH 1. intros [v|v|v|v|l].
  - apply HNumber.
  - apply HDate.
  - apply HString.
  - apply HBinary.
  - apply HArray. induction l as [|x rest IHl].
    + constructor.
    + constructor; [apply IH | exact IHl].
Qed.

End KeyInduction.

Lemma compareTwoKeys_array (xs ys : list Key) :
  compareTwoKeys (KArray xs) (KArray ys) = compareArrays xs ys.
Proof. destruct xs; reflexivity. Qed.

Lemma string_compare_refl (s : string) : String.compare s s = Eq.
Proof.
  pose proof (String.compare_antisym s s) as H.
  destruct (String.compare s s); cbn in H; congruence.
Qed.

Lemma string_ltb_irrefl (s : string) : String.ltb s s = false.
Proof. unfold String.ltb. now rewrite string_compare_refl. Qed.

Lemma number_ltb_irrefl (v : number) : JsNumber.ltb v v = false.
Proof.
  destruct v as [|q|]; cbn; try reflexivity.
  now rewrite (proj1 (Qeq_alt q q) (Qeq_refl q)).
Qed.

(** Comparing a key with itself gives 0, whatever its type. *)
Lemma compareTwoKeys_refl (a : Key) : compareTwoKeys a a = 0.
Proof.
  induction a as [v|v|v|v|l IH] using Key_nested_ind.
  - cbn. unfold JsNumber.gtb. now rewrite number_ltb_irrefl.
  - cbn. rewrite Z.gtb_ltb, Z.ltb_irrefl. reflexivity.
  - cbn. now rewrite string_ltb_irrefl.
  - cbn. unfold buffer_ltb. now rewrite string_ltb_irrefl.
  - rewrite compareTwoKeys_array.
    induction IH as [|x l Hx _ IHl]; cbn; [reflexivity|].
    rewrite Hx. cbn. exact IHl.
Qed.

Lemma number_compare_antisym (a b : number) :
  (if JsNumber.gtb a b then 1 else if JsNumber.ltb a b then -1 else 0)
  = - (if JsNumber.gtb b a then 1 else if JsNumber.ltb b a then -1 else 0).
Proof.
  unfold JsNumber.gtb.
  destruct a as [|x|], b as [|y|]; cbn; try reflexivity.
  rewrite <- (Qcompare_antisym x y).
  destruct (Qcompare x y); reflexivity.
Qed.

Lemma string_compare_antisym (a b : string) :
  (if String.ltb a b then -1 else if String.ltb b a then 1 else 0)
  = - (if String.ltb b a then -1 else if String.ltb a b then 1 else 0).
Proof.
  unfold String.ltb. rewrite (String.compare_antisym b a).
  destruct (String.compare a b); reflexivity.
Qed.

Lemma date_compare_antisym (a b : Z) :
  (if a >? b then 1 else if a <? b then -1 else 0)
  = - (if b >? a then 1 else if b <? a then -1 else 0).
Proof.
  rewrite !Z.gtb_ltb.
  destruct (Z.ltb_spec a b), (Z.ltb_spec b a); lia.
Qed.

(** Away from binary keys the comparison is antisymmetric. *)
Lemma compareTwoKeys_antisym_binaryFree (a : Key) :
  forall b, binaryFree a = true -> binaryFree b = true ->
            compareTwoKeys a b = - compareTwoKeys b a.
Proof.
  induction a as [v|v|v|v|l IH] using Key_nested_ind;
    intros [w|w|w|w|m] Ha Hb; try discriminate; try reflexivity.
  - apply number_compare_antisym.
  - apply date_compare_antisym.
  - apply string_compare_antisym.
  - rewrite !compareTwoKeys_array. cbn in Ha, Hb.
    revert m Hb. induction IH as [|x l Hx _ IHl]; intros [|y m] Hb;
      try reflexivity.
    cbn in Ha, Hb.
    apply andb_prop in Ha as [Hax Hal], Hb as [Hby Hbm].
    cbn [compareArrays]. rewrite (Hx y Hax Hby).
    destruct (Z.eqb_spec (compareTwoKeys y x) 0) as [E|E].
    + rewrite E. cbn. now apply IHl.
    + destruct (Z.eqb_spec (- compareTwoKeys y x) 0); [lia | reflexivity].
Qed.

Lemma number_case_signZ (a b : number) :
  (if JsNumber.gtb a b then 1 else if JsNumber.ltb a b then -1 else 0)
  = signZ (number_compare a b).
Proof.
  unfold JsNumber.gtb.
  destruct a as [|x|], b as [|y|]; cbn; try reflexivity.
  rewrite <- (Qcompare_antisym x y). destruct (Qcompare x y); reflexivity.
Qed.

Lemma date_case_signZ (a b : Z) :
  (if a >? b then 1 else if a <? b then -1 else 0) = signZ (Z.compare a b).
Proof.
  rewrite Z.gtb_ltb. unfold Z.ltb. rewrite (Z.compare_antisym a b).
  destruct (Z.compare a b); reflexivity.
Qed.

Lemma string_case_signZ (a b : string) :
  (if String.ltb a b then -1 else if String.ltb b a then 1 else 0)
  = signZ (String.compare a b).
Proof.
  unfold String.ltb. rewrite (String.compare_antisym b a).
  destruct (String.compare a b); reflexivity.
Qed.

Lemma signZ_inj c d : signZ c = signZ d -> c = d.
Proof. destruct c, d; cbn; congruence || lia. Qed.

Lemma number_compare_lawful : lawful number_compare.
Proof.
  intros a b c. destruct a as [|x|], b as [|y|], c as [|z|]; cbn;
    repeat split; try congruence.
  - intros E. apply Qeq_alt in E. now rewrite E.
  - intros H1 H2. apply Qlt_alt in H1. apply Qlt_alt in H2. apply Qlt_alt.
    eapply Qlt_trans; eassumption.
  - intros H1 H2. apply Qlt_alt in H1. apply Qeq_alt in H2. apply Qlt_alt.
    now rewrite <- H2.
Qed.

Lemma Z_compare_lawful : lawful Z.compare.
Proof.
  intros a b c. repeat split.
  - intros E. apply Z.compare_eq_iff in E. now subst.
  - intros H1 H2. change (a < b) in H1. change (b < c) in H2.
    change (a < c). lia.
  - intros H1 H2. apply Z.compare_eq_iff in H2. now subst.
Qed.

Lemma String_compare_lawful : lawful String.compare.
Proof.
  intros a b c. repeat split.
  - intros E. apply String.compare_eq_iff in E. now subst.
  - intros H1 H2. apply String_as_OT.cmp_lt in H1. apply String_as_OT.cmp_lt in H2.
    apply String_as_OT.cmp_lt.
    eapply String_as_OT.lt_trans; eassumption.
  - intros H1 H2. apply String.compare_eq_iff in H2. now subst.
Qed.

Lemma lawful_signZ {A} (cmp : A -> A -> comparison) (a b c : A) :
  lawful cmp ->
  (signZ (cmp a b) = 0 -> signZ (cmp a c) = signZ (cmp b c))
  /\ (signZ (cmp a b) = -1 -> signZ (cmp b c) = -1 -> signZ (cmp a c) = -1)
  /\ (signZ (cmp a b) = -1 -> signZ (cmp b c) = 0 -> signZ (cmp a c) = -1).
Proof.
  intros L. destruct (L a b c) as (L1 & L2 & L3). repeat split.
  - intros H. rewrite L1; [reflexivity|]. now apply signZ_inj.
  - intros H1 H2. rewrite L2; [reflexivity| |]; now apply signZ_inj.
  - intros H1 H2. rewrite L3; [reflexivity| |]; now apply signZ_inj.
Qed.

Lemma compareArrays_lawful (xs : list Key) :
  Forall lawfulAt xs ->
  forall ys zs,
    forallb binaryFree xs = true -> forallb binaryFree ys = true ->
    forallb binaryFree zs = true ->
    (compareArrays xs ys = 0 -> compareArrays xs zs = compareArrays ys zs)
    /\ (compareArrays xs ys = -1 -> compareArrays ys zs = -1 -> compareArrays xs zs = -1)
    /\ (compareArrays xs ys = -1 -> compareArrays ys zs = 0 -> compareArrays xs zs = -1).
Proof.
  induction 1 as [|x xs Hx _ IH]; intros [|y ys] [|z zs] Bx By Bz;
    cbn [compareArrays].
  1-7: repeat split; intros; first [reflexivity | lia | idtac].
  cbn in Bx, By, Bz.
  apply andb_prop in Bx as [Bx Bxs], By as [By Bys], Bz as [Bz Bzs].
  destruct (Hx y z Bx By Bz) as (K1 & K2 & K3).
  destruct (IH ys zs Bxs Bys Bzs) as (I1 & I2 & I3).
  destruct (Z.eqb_spec (compareTwoKeys x y) 0) as [Exy|Exy];
    destruct (Z.eqb_spec (compareTwoKeys y z) 0) as [Eyz|Eyz].
  - rewrite (K1 Exy), Eyz. cbn. auto.
  - rewrite (K1 Exy). destruct (Z.eqb_spec (compareTwoKeys y z) 0); [lia|].
    repeat split; intros; congruence.
  - repeat split; intros H1; try congruence;
      intros H2; rewrite (K3 H1 Eyz); reflexivity.
  - repeat split; intros H1; try congruence.
    intros H2. rewrite (K2 H1 H2). reflexivity.
Qed.

(** Away from binary keys the comparison obeys the laws of a total
    preorder: keys that compare 0 compare alike with every third key, and
    "below" is transitive. *)
Lemma compareTwoKeys_lawful_binaryFree (a : Key) : lawfulAt a.
Proof.
  induction a as [v|v|v|v|l IH] using Key_nested_ind;
    intros [w|w|w|w|m] [u|u|u|u|n] Ha Hb Hc; try discriminate;
    try (cbn; repeat split; intros; first [reflexivity | lia]).
  - cbn [compareTwoKeys]. rewrite !number_case_signZ.
    apply lawful_signZ, number_compare_lawful.
  - cbn [compareTwoKeys]. rewrite !date_case_signZ.
    apply lawful_signZ, Z_compare_lawful.
  - cbn [compareTwoKeys]. rewrite !string_case_signZ.
    apply lawful_signZ, String_compare_lawful.
  - rewrite !compareTwoKeys_array. now apply compareArrays_lawful.
Qed.

(** Transitivity, in the claim's words, for keys without binary parts. *)
Lemma compareTwoKeys_trans_binaryFree (a b c : Key) :
  binaryFree a = true -> binaryFree b = true -> binaryFree c = true ->
  compareTwoKeys a b = -1 -> compareTwoKeys b c = -1 ->
  compareTwoKeys a c = -1.
Proof.
  intros Ha Hb Hc. now apply (compareTwoKeys_lawful_binaryFree a b c).
Qed.

(** C4, binary keys: the claim is that [compareTwoKeys] is a strict total
    order on keys of every type, so that [compare(a, b) = - compare(b, a)]
    also for two binary keys.  On the one-byte keys [1] and [2] the
    function answers -1 in both directions: the second branch of the
    binary case returns -1 where the string case returns 1. *)
Theorem C4_binary_keys_each_below_the_other :
  let a := KBinary (Uint8Array [Byte.x01]) in
  let b := KBinary (Uint8Array [Byte.x02]) in
  compareTwoKeys a b = -1
  /\ compareTwoKeys b a = -1
  /\ compareTwoKeys a b <> - compareTwoKeys b a.
Proof. cbv zeta. repeat split. discriminate. Qed.

(** ** Multi-entry keys *)

(** C7, multi-entry conversion: the claim is that duplicates (keys that
    compare 0) are dropped and the first occurrence kept.  On
    [[1, 2, 1]] the function returns [[1, 1]]: the callback of [find]
    hands back the comparison itself, which is truthy for a key that
    differs, so a key is kept exactly when no kept key differs from it.
    Dropping duplicates would give [[1, 2]]. *)
Theorem C7_multiEntry_keeps_duplicate_drops_distinct :
  valueToMultiEntryKey
    (VArray 0 [Scenario.num 1; Scenario.num 2; Scenario.num 1])
  = Some (KArray [Scenario.key 1; Scenario.key 1])
  /\ dedupFirst [Scenario.key 1; Scenario.key 2; Scenario.key 1] []
     = [Scenario.key 1; Scenario.key 2].
Proof. split; reflexivity. Qed.

(** On anything but an array the multi-entry conversion is the ordinary
    conversion. *)
Lemma valueToMultiEntryKey_not_array (input : Value) :
  (forall id entries, input <> VArray id entries) ->
  valueToMultiEntryKey input = valueToKey input.
Proof.
  intros H. destruct input; try reflexivity.
  now contradiction (H id entries).
Qed.

(** ** Key ranges *)

(** On key objects [keyInRange] is the membership rule. *)
Lemma keyInRange_matches (r : KeyRange.IDBKeyRange) (k : Key) :
  KeyRange.keyInRange r (OKey k) = KeyRange.matches r k.
Proof. reflexivity. Qed.

Lemma crossType_raw (t : KeyType) : crossType (Some t) None = 1.
Proof. destruct t; reflexivity. Qed.

(** Every key compares above a second operand that is not a key object. *)
Lemma compareTwoKeys_raw (a : Key) (v : Value) :
  compareTwoKeys_operand a (ORaw v) = 1.
Proof. apply crossType_raw. Qed.

(** What [includes] computes for a value that converts to a key: whether
    the range has no lower bound. *)
Lemma includes_only_asks_for_lower_bound (r : KeyRange.IDBKeyRange) (v : Value) :
  valueToKey v <> None ->
  KeyRange.includes r v = Ok (negb (isSome (KeyRange._lowerBound r))).
Proof.
  intros H. unfold KeyRange.includes, KeyRange.keyInRange.
  destruct (valueToKey v); [|congruence].
  destruct (KeyRange._lowerBound r), (KeyRange._upperBound r);
    rewrite ?compareTwoKeys_raw; reflexivity.
Qed.

(** C6, [includes]: the claim is that [r.includes(k)] is the membership
    rule applied to [toKey(k)].  For the range from 1 to 10, bounds
    included, and the value 5 the rule holds and [includes] answers
    false: it converts the value, then passes the unconverted value to
    [keyInRange]. *)
Theorem C6_includes_rejects_key_inside_range :
  let r := KeyRange.createRange (Some (Scenario.key 1)) (Some (Scenario.key 10))
             false false in
  KeyRange.bound (Scenario.num 1) (Scenario.num 10) false false = Ok r
  /\ valueToKey (Scenario.num 5) = Some (Scenario.key 5)
  /\ KeyRange.matches r (Scenario.key 5) = true
  /\ KeyRange.includes r (Scenario.num 5) = Ok false.
Proof. cbv zeta. repeat split. Qed.

(** ** Key generator *)

Section KeyGeneratorFacts.
Import KeyGenerator.

Lemma succ_bounds (x : Z) : 0 <= x <= two53 -> x <= JsNumber.succ x <= two53.
Proof.
  unfold JsNumber.succ. intros H.
  destruct (Z.eqb_spec x two53); lia.
Qed.

Lemma succ_below (x : Z) : x < two53 -> JsNumber.succ x = x + 1.
Proof.
  unfold JsNumber.succ. intros H.
  destruct (Z.eqb_spec x two53); lia.
Qed.

Lemma floorMin_le (v : number) (z : Z) : floorMin v = Some z -> z <= two53.
Proof.
  unfold floorMin, MathMin, MathFloor, JsNumber.ltb, ofZ.
  destruct v as [|q|].
  - discriminate.
  - destruct (Qcompare (inject_Z two53) q) eqn:E;
      intros [= <-]; rewrite ?Z.div_1_r.
    + apply Qeq_alt in E.
      rewrite <- (Qfloor_Z two53). apply Qfloor_resp_le.
      rewrite E. apply Qle_refl.
    + lia.
    + apply Qgt_alt in E.
      rewrite <- (Qfloor_Z two53). apply Qfloor_resp_le.
      now apply Qlt_le_weak.
  - intros [= <-]. rewrite ?Z.div_1_r. lia.
Qed.

(** [current] stays an integer between 1 and 2^53. *)
Lemma current_bounds (g : KeyGenerator) (c : Call) :
  inBounds g -> inBounds (fst (call g c)).
Proof.
  unfold inBounds. intros H. destruct c as [|k]; cbn.
  - unfold generateKey. destruct (Z.gtb_spec (current g) two53); cbn; [lia|].
    pose proof (succ_bounds (current g)). lia.
  - unfold possiblyUpdate. destruct k; try exact H.
    destruct (floorMin value) as [z|] eqn:E; [|exact H].
    apply floorMin_le in E.
    destruct (Z.geb_spec z (current g)); cbn; [|exact H].
    pose proof (succ_bounds z). lia.
Qed.

(** No call lowers [current]. *)
Lemma current_nondecreasing (g : KeyGenerator) (c : Call) :
  inBounds g -> current g <= current (fst (call g c)).
Proof.
  unfold inBounds. intros H. destruct c as [|k]; cbn.
  - unfold generateKey. destruct (Z.gtb_spec (current g) two53); cbn; [lia|].
    pose proof (succ_bounds (current g)). lia.
  - unfold possiblyUpdate. destruct k; try lia.
    destruct (floorMin value) as [z|] eqn:E; [|lia].
    apply floorMin_le in E.
    destruct (Z.geb_spec z (current g)); cbn; [|lia].
    pose proof (succ_bounds z). lia.
Qed.

(** Over any sequence of calls the values of [current] never go down. *)
Lemma run_current_nondecreasing (calls : list Call) :
  forall g, inBounds g -> Sorted Z.le (fst (run g calls)).
Proof.
  induction calls as [|c rest IH]; intros g Hg; cbn.
  - repeat constructor.
  - pose proof (current_bounds g c Hg) as Hb.
    pose proof (current_nondecreasing g c Hg) as Hle.
    destruct (call g c) as [g' out]. cbn in Hb, Hle.
    specialize (IH g' Hb).
    destruct (run g' rest) as [states keys] eqn:E. cbn in *.
    constructor; [exact IH|].
    destruct rest; cbn in E.
    + injection E as <- _. constructor. exact Hle.
    + destruct (call g' c0). destruct (run k rest).
      injection E as <- _. constructor. exact Hle.
Qed.

(** Below the ceiling a generated key is the old [current], and the new
    [current] is one more. *)
Lemma generateKey_below_ceiling (g : KeyGenerator) :
  current g < two53 ->
  generateKey g = Ok (KNumber (ofZ (current g)), {| current := current g + 1 |}).
Proof.
  intros H. unfold generateKey.
  destruct (Z.gtb_spec (current g) two53); [lia|].
  now rewrite succ_below.
Qed.

Lemma Qcompare_inject_Z (a b : Z) :
  Qcompare (inject_Z a) (inject_Z b) = Z.compare a b.
Proof. unfold Qcompare. cbn. now rewrite !Z.mul_1_r. Qed.

Lemma compare_number_keys_lt (a b : Z) :
  a < b -> compareTwoKeys (KNumber (ofZ a)) (KNumber (ofZ b)) = -1.
Proof.
  intros H. cbn [compareTwoKeys].
  unfold JsNumber.gtb, JsNumber.ltb, ofZ. rewrite !Qcompare_inject_Z.
  rewrite (proj2 (Z.compare_gt_iff b a) H), (proj2 (Z.compare_lt_iff a b) H).
  reflexivity.
Qed.

Lemma run_states_cons (g : KeyGenerator) (c : Call) (rest : list Call) :
  fst (run g (c :: rest)) = current g :: fst (run (fst (call g c)) rest).
Proof.
  cbn [run]. destruct (call g c) as [g' out]. cbn [fst snd].
  destruct (run g' rest). reflexivity.
Qed.

Lemma run_keys_cons (g : KeyGenerator) (c : Call) (rest : list Call) :
  snd (run g (c :: rest))
  = match snd (call g c) with
    | Some k => k :: snd (run (fst (call g c)) rest)
    | None => snd (run (fst (call g c)) rest)
    end.
Proof.
  cbn [run]. destruct (call g c) as [g' out]. cbn [fst snd].
  destruct (run g' rest). reflexivity.
Qed.

(** As long as [current] stays below 2^53, every generated key is at
    least the [current] the sequence started from and compares below
    every key generated after it. *)
Lemma run_keys_increasing_below_ceiling (calls : list Call) :
  forall g,
    inBounds g ->
    Forall (fun s => s < two53) (fst (run g calls)) ->
    Forall (fun k => exists z, k = KNumber (ofZ z) /\ current g <= z)
      (snd (run g calls))
    /\ StronglySorted (fun a b => compareTwoKeys a b = -1) (snd (run g calls)).
Proof.
  induction calls as [|c rest IH]; intros g Hg Hall.
  - split; constructor.
  - pose proof (current_bounds g c Hg) as Hb.
    pose proof (current_nondecreasing g c Hg) as Hle.
    rewrite run_states_cons in Hall.
    apply Forall_cons_iff in Hall as [Hlt Hrest].
    destruct (IH _ Hb Hrest) as [Habove Hsorted].
    rewrite run_keys_cons.
    assert (Hweaken :
      Forall (fun k => exists z, k = KNumber (ofZ z) /\ current g <= z)
        (snd (run (fst (call g c)) rest))).
    { eapply Forall_impl; [|exact Habove].
      cbn. intros a (z & -> & Hz). exists z. split; [reflexivity | lia]. }
    destruct c as [|k]; [|now split].
    cbn [call] in *. rewrite (generateKey_below_ceiling g Hlt) in *.
    cbn [fst snd current] in *.
    split.
    + constructor; [|exact Hweaken].
      exists (current g). split; [reflexivity | lia].
    + constructor; [exact Hsorted|].
      eapply Forall_impl; [|exact Habove].
      cbn. intros a (z & -> & Hz). apply compare_number_keys_lt. lia.
Qed.

End KeyGeneratorFacts.

(** C8, key generator: the claim is that over every sequence of calls
    [current] never goes down and every generated key is strictly greater
    than all generated before.  The first half holds
    ([run_current_nondecreasing]).  The second fails at the ceiling.
    After [possiblyUpdate] with the key 9007199254740992, [current] is
    2^53 + 1 in double arithmetic, that is 2^53; [generateKey] then finds
    [current > 2^53] false, hands out 2^53 and leaves [current] at 2^53,
    so the next call hands out 2^53 again instead of throwing. *)
Theorem C8_generated_key_repeats_at_ceiling :
  KeyGenerator.run KeyGenerator.initial
    [KeyGenerator.PossiblyUpdate (Scenario.key 9007199254740992);
     KeyGenerator.GenerateKey;
     KeyGenerator.GenerateKey]
  = ([1; 9007199254740992; 9007199254740992; 9007199254740992],
     [Scenario.key 9007199254740992; Scenario.key 9007199254740992])
  /\ compareTwoKeys (Scenario.key 9007199254740992)
       (Scenario.key 9007199254740992) = 0
  /\ KeyGenerator.generateKey {| KeyGenerator.current := 9007199254740992 |}
     = Ok (Scenario.key 9007199254740992,
           {| KeyGenerator.current := 9007199254740992 |}).
Proof. repeat split. Qed.

(** C10, [possiblyUpdate] with a key that is not a number (a date, a
    string, a binary or an array key) returns at once: the generator, of
    which [current] is the only state, is left exactly as it was. *)
Theorem C10_possiblyUpdate_ignores_non_number
  (this : KeyGenerator.KeyGenerator) (key : Key) :
  keyType key <> number_t ->
  KeyGenerator.possiblyUpdate this key = this.
Proof.
  intros H. destruct key; try reflexivity.
  now contradiction H.
Qed.

Lemma C10_possiblyUpdate_ignores_non_number_witness :
  keyType (KArray [KString "a"; KDate 5]) <> number_t
  /\ KeyGenerator.possiblyUpdate {| KeyGenerator.current := 7 |}
       (KArray [KString "a"; KDate 5])
     = {| KeyGenerator.current := 7 |}.
Proof.
  split.
  - discriminate.
  - apply (C10_possiblyUpdate_ignores_non_number
             {| KeyGenerator.current := 7 |} (KArray [KString "a"; KDate 5])).
    discriminate.
Defined.

(** ** add and put *)

(** C5, [add] and [put] on an active transaction: the claim is that they
    raise [ReadOnlyError] exactly when the mode is read-only.  The test
    in [addOrPut] is [mode !== "readonly"] where [delete] and [clear]
    test [mode === "readonly"]: whatever the store, the value and the
    key, a read-write or version-change transaction gets
    [ReadOnlyError], and a read-only one passes the gate and has its
    write enqueued. *)
Theorem C5_addOrPut_mode_gate_inverted :
  (forall clone extract check store value key noOverwrite,
      ObjectStore.addOrPut (fun _ => Ok tt) clone extract check
        {| ObjectStore._state := active; ObjectStore._mode := readwrite;
           ObjectStore._store := store |} value key noOverwrite
      = Throw (DOMException ReadOnlyError))
  /\ (forall clone extract check store value key noOverwrite,
      ObjectStore.addOrPut (fun _ => Ok tt) clone extract check
        {| ObjectStore._state := active; ObjectStore._mode := versionchange;
           ObjectStore._store := store |} value key noOverwrite
      = Throw (DOMException ReadOnlyError))
  /\ (forall extract check,
      ObjectStore.put (fun _ => Ok tt) (fun v => Ok v) extract check
        {| ObjectStore._state := active; ObjectStore._mode := readonly;
           ObjectStore._store := {| ObjectStore.keyPath := None;
                                    ObjectStore.keyGenerator := None |} |}
        (VString "a") (Some (Scenario.num 1))
      = Ok {| ObjectStore.so_value := VString "a";
              ObjectStore.so_key := Some (Scenario.key 1);
              ObjectStore.so_noOverwrite := false |}).
Proof. repeat split. Qed.

(** ** Cursors *)

Section CursorFacts.
Import Cursor.

Lemma findM_ext {A} (p q : A -> Res bool) (l : list A) :
  (forall x, p x = q x) -> findM p l = findM q l.
Proof.
  intros H. induction l as [|x rest IH]; cbn; [reflexivity|].
  now rewrite H, IH.
Qed.

Lemma keyTest_raw_forward (v : Value) (recordKey : Key) :
  keyTest (Some (ORaw v)) (-1) recordKey = keyTest None (-1) recordKey.
Proof. unfold keyTest. now rewrite compareTwoKeys_raw. Qed.

Lemma keyTest_raw_backward (v : Value) (recordKey : Key) :
  keyTest (Some (ORaw v)) 1 recordKey = false.
Proof. unfold keyTest. now rewrite compareTwoKeys_raw. Qed.

(** What the operation built by [advance] amounts to on a forward
    cursor: one step without a target key, whatever the count. *)
Lemma advance_operation_forward (records : list Record_) (c : IDBCursor)
  (v : Value) :
  _direction c = next \/ _direction c = nextunique ->
  iterateCursor records c (Some (ORaw v)) None None
  = stepTimes records c 1.
Proof.
  intros Hdir. unfold stepTimes, iterateCursor. cbn [loop].
  assert (Hsel : forall position found,
             select c (Some (ORaw v)) None records position found
             = select c None None records position found).
  { intros position found. unfold select.
    destruct Hdir as [-> | ->]; apply findM_ext; intros r;
      unfold matchesNext, matchesNextUnique;
      now rewrite keyTest_raw_forward. }
  now rewrite Hsel.
Qed.

Lemma findM_never {A} (p : A -> Res bool) (l : list A) :
  (forall x, p x = Ok false) -> findM p l = Ok None.
Proof.
  intros H. induction l as [|x rest IH]; cbn; [reflexivity|].
  now rewrite H.
Qed.

(** On a backward cursor over a store the operation built by [advance]
    finds nothing: the count, taken for a key, fails the key test of
    every record, and the cursor is reported exhausted. *)
Lemma advance_operation_backward (records : list Record_) (c : IDBCursor)
  (v : Value) :
  _source c = IDBObjectStore ->
  _direction c = prev \/ _direction c = prevunique ->
  iterateCursor records c (Some (ORaw v)) None None
  = Ok ({| _source := _source c; _direction := _direction c;
           _range := _range c; _keyOnly := _keyOnly c;
           _position := _position c;
           _objectStorePosition := _objectStorePosition c;
           _key := _key c;
           _value := if _keyOnly c then _value c else None;
           _gotValue := _gotValue c |}, false).
Proof.
  intros Hsrc Hdir. unfold iterateCursor. cbn [loop].
  assert (Hsel : select c (Some (ORaw v)) None records (_position c) None
                 = Ok None).
  { unfold select. destruct Hdir as [-> | ->].
    - rewrite findM_never; [reflexivity|].
      intros r. unfold matchesPrev, primaryKeyTest, positionTest.
      rewrite keyTest_raw_backward, Hsrc. cbn.
      destruct (_position c); reflexivity.
    - rewrite findM_never; [reflexivity|].
      intros r. unfold matchesPrevUnique.
      now rewrite keyTest_raw_backward. }
  rewrite Hsel. cbn. now rewrite Hsrc.
Qed.
End CursorFacts.

(** [assertCursor] throws on every cursor, whatever the backend says of
    the source: the store it checks first is the cursor's position. *)
Lemma assertCursor_throws (assertSource : Cursor.IDBCursor -> Res unit)
  (cursor : Cursor.IDBCursor) :
  Cursor.assertCursor assertSource cursor = Throw TypeError.
Proof.
  unfold Cursor.assertCursor, Cursor._effectiveObjectStore.
  destruct (Cursor._source cursor);
    [destruct (Cursor._position cursor)
    | destruct (Cursor._objectStorePosition cursor)];
    reflexivity.
Qed.

(** In an active transaction [advance] throws [TypeError] whatever the
    cursor and the count: a count out of range or zero is refused by the
    conversion and the test on zero, every other one by [assertCursor]. *)
Lemma advance_throws (assertSource : Cursor.IDBCursor -> Res unit)
  (records : list Cursor.Record_) (this : Cursor.IDBCursor) (count : Z) :
  Cursor.advance assertSource records active this count = Throw TypeError.
Proof.
  unfold Cursor.advance.
  destruct ((count <? 0) || (count >? 4294967295)); [reflexivity|].
  destruct (count =? 0); [reflexivity|].
  cbn [TransactionState_eqb negb]. now rewrite assertCursor_throws.
Qed.

(** C9, [advance]: the claim is that, on a cursor with [gotValue] true in
    an active transaction, [advance(count)] runs the step procedure
    [count] times without a target key.  No call gets that far:
    [assertCursor] hands [cursor[_effectiveObjectStore]], the cursor's
    position, to [assertObjectStore], which reads [[_store].database]
    off it and throws [TypeError], so [advance] throws before anything
    is queued and the cursor stays where it is.  On a store with the
    keys 1 to 6 and a forward cursor on key 1, three steps lead to key
    4.  Behind the check lies a second defect: the operation [advance]
    would queue is [iterateCursor(this, count)], which binds the number
    to the [key] parameter and leaves [count] at its default 1, so that
    it moves the cursor to key 2. *)
Theorem C9_advance_throws_before_any_step :
  (forall assertSource records this count,
      Cursor.advance assertSource records active this count = Throw TypeError)
  /\ Cursor.advance (fun _ => Ok tt) Scenario.records active
       (Scenario.cursorAt 1) 3
     = Throw TypeError
  /\ Cursor.stepTimes Scenario.records
       (Cursor.setGotValue (Scenario.cursorAt 1) false) 3
     = Ok (Scenario.cursorAt 4, true)
  /\ Cursor.iterateCursor Scenario.records
       (Cursor.setGotValue (Scenario.cursorAt 1) false)
       (Some (ORaw (Scenario.num 3))) None None
     = Ok (Scenario.cursorAt 2, true).
Proof.
  split; [exact advance_throws|]. repeat split.
Qed.

(** ** Transactions *)

Section TransactionFacts.
Import Txn.

Variable cancels : Event -> bool.
Variable opSync : Op -> Res unit.

Lemma abortRequest_passive (request : nat) (w : World) :
  abortRequest (passiveListeners cancels) request w
  = (Ok tt,
     with_trace (trace w ++ [error_event request])
       (with_requests (alter markAborted request (requests w)) w)).
Proof.
  unfold abortRequest, bind, resolve, set_done, set_result, set_error, update,
    modify, dispatchEvent, log, bind, modify, ret, passiveListeners. cbn.
  f_equal. destruct w as [st md er list reqs nx sus tr].
  unfold with_trace, with_requests; cbn. f_equal.
  apply map_eq. intros i. destruct (decide (request = i)) as [->|Hne].
  - rewrite !lookup_alter_eq. destruct (reqs !! i); reflexivity.
  - rewrite !lookup_alter_ne by assumption. reflexivity.
Qed.

(** The loop of [abortTransaction]: every listed request is marked, the
    others are left alone, and one error notification goes out per
    entry of the list. *)
Lemma abortLoop_passive (list : list nat) : forall w,
  let r := forEach list (abortRequest (passiveListeners cancels)) w in
  fst r = Ok tt
  /\ _state (snd r) = _state w
  /\ _txError (snd r) = _txError w
  /\ _requestList (snd r) = _requestList w
  /\ suspended (snd r) = suspended w
  /\ trace (snd r) = trace w ++ List.map error_event list
  /\ (forall i, In i list -> requests (snd r) !! i = markAborted <$> requests w !! i)
  /\ (forall i, ~ In i list -> requests (snd r) !! i = requests w !! i).
Proof.
  induction list as [|x l IH]; intros w.
  - cbn. rewrite app_nil_r. repeat split; auto. intros i [].
  - change (forEach (x :: l) (abortRequest (passiveListeners cancels)) w)
      with (bind (abortRequest (passiveListeners cancels) x)
              (fun _ => forEach l (abortRequest (passiveListeners cancels))) w).
    unfold bind. rewrite abortRequest_passive. cbn zeta.
    specialize (IH (with_trace (trace w ++ [error_event x])
       (with_requests (alter markAborted x (requests w)) w))).
    cbn in IH. destruct IH as (H1 & H2 & H4 & H5 & H6 & H7 & H8 & H9).
    repeat split; auto.
    + rewrite H7. now rewrite <- app_assoc.
    + intros i Hi. destruct (in_dec Nat.eq_dec i l) as [Hl|Hl].
      * rewrite (H8 i Hl). destruct (decide (x = i)) as [->|Hne].
        -- rewrite lookup_alter_eq. destruct (requests w !! i); reflexivity.
        -- now rewrite lookup_alter_ne.
      * rewrite (H9 i Hl). destruct Hi as [->|Hi]; [|contradiction].
        apply lookup_alter_eq.
    + intros i Hi.
      assert (x <> i /\ ~ In i l) as [Hx Hl]
        by (split; intros ?; apply Hi; cbn; auto).
      rewrite (H9 i Hl). now apply lookup_alter_ne.
Qed.

(** [abortTransaction] with a backend whose abort call succeeds. *)
Lemma abortTransaction_passive (error : option Exn) (w : World) :
  opSync op_indexeddb_transaction_abort = Ok tt ->
  let r := abortTransaction (passiveListeners cancels) opSync error w in
  fst r = Ok tt
  /\ _state (snd r) = finished
  /\ _requestList (snd r) = _requestList w
  /\ suspended (snd r) = suspended w
  /\ trace (snd r)
     = trace w ++ [backend_call op_indexeddb_transaction_abort]
       ++ List.map error_event (_requestList w) ++ [abort_event]
  /\ (forall i, In i (_requestList w) ->
        requests (snd r) !! i = markAborted <$> requests w !! i)
  /\ (forall i, ~ In i (_requestList w) ->
        requests (snd r) !! i = requests w !! i).
Proof.
  intros Hop.
  set (w1 := (when (isSome error) (modify (with_txError error))
                (with_state finished
                   (with_trace (trace w ++ [backend_call op_indexeddb_transaction_abort]) w))).2).
  assert (Hw1 : _state w1 = finished /\ _requestList w1 = _requestList w
                /\ suspended w1 = suspended w
                /\ trace w1 = trace w ++ [backend_call op_indexeddb_transaction_abort]
                /\ requests w1 = requests w).
  { subst w1. destruct error; cbn; auto. }
  destruct Hw1 as (Hs & Hl & Hsu & Ht & Hr).
  pose proof (abortLoop_passive (_requestList w1) w1) as Hloop.
  assert (E : abortTransaction (passiveListeners cancels) opSync error w
              = (Ok tt,
                 with_trace
                   (trace (forEach (_requestList w1)
                             (abortRequest (passiveListeners cancels)) w1).2
                    ++ [abort_event])
                   (forEach (_requestList w1)
                      (abortRequest (passiveListeners cancels)) w1).2)).
  { destruct Hloop as [Hok _].
    unfold abortTransaction, callOp, log.
    unfold bind at 1. unfold bind at 1. unfold modify at 1. cbn [fst snd].
    rewrite Hop.
    unfold bind at 1. unfold modify at 1.
    unfold bind at 1. fold w1.
    replace ((when (isSome error) (modify (with_txError error)))
               (with_state finished
                  (with_trace (trace w ++ [backend_call op_indexeddb_transaction_abort]) w)))
      with (Ok tt, w1) by (subst w1; destruct error; reflexivity).
    unfold bind at 1. unfold gets at 1.
    unfold bind at 1.
    destruct (forEach (_requestList w1)
                (abortRequest (passiveListeners cancels)) w1)
      as [[[]|exn] w2] eqn:E2; cbn in Hok; [|discriminate].
    reflexivity. }
  rewrite E. cbn zeta in Hloop. cbn [fst snd].
  destruct Hloop as (_ & H2 & _ & H5 & H6 & H7 & H8 & H9).
  cbn. repeat split.
  - now rewrite H2.
  - now rewrite H5.
  - now rewrite H6.
  - rewrite H7, Ht, Hl. now rewrite <- !app_assoc.
  - intros i Hi. rewrite <- Hl in Hi. rewrite (H8 i Hi). now rewrite Hr.
  - intros i Hi. rewrite <- Hl in Hi. rewrite (H9 i Hi). now rewrite Hr.
Qed.

(** The part of the abort rule that holds when [abort()] returns: from
    an active or inactive transaction, every queued request (so every
    pending one) is done, without result, with [AbortError], and the
    transaction is finished. *)
Lemma abort_marks_every_queued_request (w : World) :
  opSync op_indexeddb_transaction_abort = Ok tt ->
  openState w ->
  let r := abort (passiveListeners cancels) opSync w in
  fst r = Ok tt
  /\ _state (snd r) = finished
  /\ (forall i q, In i (_requestList w) -> requests w !! i = Some q ->
        requests (snd r) !! i = Some (markAborted q)).
Proof.
  intros Hop Hopen.
  pose proof (abortTransaction_passive None (with_state inactive w) Hop) as H.
  cbn zeta in H. destruct H as (H1 & H2 & _ & _ & _ & H6 & _).
  assert (E : abort (passiveListeners cancels) opSync w
              = abortTransaction (passiveListeners cancels) opSync None
                  (with_state inactive w)).
  { unfold abort, bind, gets, modify. cbn.
    destruct Hopen as [-> | ->]; reflexivity. }
  cbn zeta. rewrite E. repeat split; auto.
  intros i q Hi Hq. rewrite (H6 i Hi). cbn. now rewrite Hq.
Qed.

(** What the suspended body of a request does when it goes on: whatever
    the state of the transaction and of the request, the operation's
    value is stored and the error cleared. *)
Lemma resumed_body_stores_result (w : World) (r : nat) (v : option Value)
  (q : IDBRequest) :
  requests w !! r = Some q ->
  _state w = finished ->
  let w' := exec (resume (passiveListeners cancels) opSync (resume_request r v)) w in
  requests w' !! r = Some (markSucceeded v q)
  /\ _state w' = finished
  /\ trace w'
     = trace w ++ [match _transaction q with
                   | the_transaction => success_event r
                   | null => unhandled_rejection TypeError
                   end].
Proof.
  intros Hq Hst.
  destruct w as [st md er list reqs nx sus tr]. cbn in Hq, Hst. subst st.
  unfold exec, resume, async, settle.
  unfold bind, resolve, set_done, set_result, set_error, update, modify,
    gets, request_transaction, bind, gets, when, dispatchEvent, log, bind,
    modify, passiveListeners; cbn.
  rewrite !lookup_alter_eq, Hq. cbn.
  destruct q as [p d res e [|]]; cbn;
    rewrite !lookup_alter_eq, Hq; cbn; repeat split.
Qed.

(** No auto-commit: as long as the suspended bodies are those of queued
    requests, running them never empties the queue, so the transaction
    is still active or inactive and nothing but success notifications
    (or the rejection on a [null] transaction slot) is observed. *)
Lemma settle_ok_no_commit (w : World) (r : nat) (v : option Value) :
  _requestList w <> [] -> openState w ->
  let w' := exec (async (settle (passiveListeners cancels) opSync r (Ok v))) w in
  _requestList w' = _requestList w
  /\ suspended w' = suspended w
  /\ openState w'
  /\ exists ev, trace w' = trace w ++ [ev] /\ quiet ev.
Proof.
  intros Hne Hopen.
  destruct w as [st md er list reqs nx sus tr]. cbn in Hne.
  destruct list as [|x l]; [contradiction|].
  unfold exec, async, settle, openState in *. cbn in Hopen.
  unfold bind, resolve, set_done, set_result, set_error, update, modify,
    gets, request_transaction, bind, gets, when, dispatchEvent, log, bind,
    modify, passiveListeners; cbn.
  rewrite !lookup_alter_eq.
  destruct (reqs !! r) as [[p d res e [|]]|]; cbn.
  - repeat split; eauto. eexists; split; [reflexivity|exact I].
  - destruct Hopen as [-> | ->]; cbn; repeat split; eauto;
      eexists; (split; [reflexivity|exact I]).
  - repeat split; eauto. eexists; split; [reflexivity|exact I].
Qed.

Lemma auto_commit_never_starts (fuel : nat) : forall w,
  requestBodiesOnly w -> openState w ->
  let w' := drain (passiveListeners cancels) opSync fuel w in
  _requestList w' = _requestList w
  /\ openState w'
  /\ exists evs, trace w' = trace w ++ evs /\ Forall quiet evs.
Proof.
  induction fuel as [|fuel IH]; intros w Hreq Hopen; cbn.
  - repeat split; auto. exists []. rewrite app_nil_r. auto.
  - unfold turn. unfold requestBodiesOnly in Hreq.
    destruct (suspended w) as [|t rest] eqn:Esus; cbn.
    + repeat split; auto. exists []. rewrite app_nil_r. auto.
    + apply Forall_cons_iff in Hreq as [Ht Hrest].
      destruct t as [r v|i]; [|contradiction]. cbn.
      assert (Hne : _requestList (with_suspended rest w) <> []).
      { cbn. intros E. rewrite E in Ht. contradiction. }
      destruct (settle_ok_no_commit (with_suspended rest w) r v Hne Hopen)
        as (Hl & Hs & Ho & ev & Htr & Hq).
      unfold exec in *.
      set (w1 := (async (settle (passiveListeners cancels) opSync r (Ok v))
                    (with_suspended rest w)).2) in *.
      destruct (IH w1) as (Hl' & Ho' & evs & Htr' & Hqs).
      * unfold requestBodiesOnly. rewrite Hs, Hl. exact Hrest.
      * exact Ho.
      * repeat split.
        -- now rewrite Hl', Hl.
        -- exact Ho'.
        -- exists (ev :: evs). rewrite Htr', Htr. cbn. rewrite <- app_assoc.
           split; [reflexivity|]. constructor; assumption.
Qed.

(** The end of a commit whose backend call throws: the transaction is
    left as it was, in ["committing"], and the exception is dropped. *)
Lemma finishCommit_backend_throws (w : World) (e : Exn) :
  opSync op_indexeddb_transaction_commit = Throw e ->
  exec (async (finishCommit (passiveListeners cancels) opSync)) w
  = with_trace (trace w ++ [backend_call op_indexeddb_transaction_commit;
                            unhandled_rejection e]) w.
Proof.
  intros Hop. unfold exec, async, finishCommit, callOp, bind, log, modify.
  cbn. rewrite Hop. cbn. now rewrite <- app_assoc.
Qed.

(** The end of a commit whose backend call succeeds. *)
Lemma finishCommit_backend_ok (w : World) :
  opSync op_indexeddb_transaction_commit = Ok tt ->
  _state w = committing ->
  _mode w <> versionchange ->
  exec (async (finishCommit (passiveListeners cancels) opSync)) w
  = with_trace (trace w ++ [backend_call op_indexeddb_transaction_commit; complete_event])
      (with_state finished w).
Proof.
  intros Hop Hst Hmode.
  destruct w as [st md er list reqs nx sus tr]. cbn in Hst, Hmode. subst st.
  unfold exec, async, finishCommit, callOp, bind, log, modify, gets,
    dispatchEvent, bind, log, modify, passiveListeners.
  cbn. rewrite Hop. cbn.
  destruct md; try contradiction; cbn; now rewrite <- app_assoc.
Qed.

End TransactionFacts.

Section Invariants.
Import Txn.

Variable I : World -> Prop.

Lemma keeps_ret {A} (a : A) : keeps I (ret a).
Proof. intros w H. exact H. Qed.

Lemma keeps_throw {A} (e : Exn) : keeps I (@throw A e).
Proof. intros w H. exact H. Qed.

Lemma keeps_gets {A} (f : World -> A) : keeps I (gets f).
Proof. intros w H. exact H. Qed.

Lemma keeps_modify (f : World -> World) :
  (forall w, I w -> I (f w)) -> keeps I (modify f).
Proof. intros Hf w H. now apply Hf. Qed.

Lemma keeps_bind {A B} (c : M A) (k : A -> M B) :
  keeps I c -> (forall a, keeps I (k a)) -> keeps I (bind c k).
Proof.
  intros Hc Hk w H. unfold bind. specialize (Hc w H).
  destruct (c w) as [[a|e] w']; cbn in *; [now apply Hk | exact Hc].
Qed.

(** Reading the world first: the continuation only has to keep [I] from
    the world the value was read in. *)
Lemma keeps_bind_gets {A B} (f : World -> A) (k : A -> M B) :
  (forall w, I w -> I (snd (k (f w) w))) -> keeps I (bind (gets f) k).
Proof. intros Hk w H. unfold bind, gets. now apply Hk. Qed.

Lemma keeps_when (b : bool) (c : M unit) :
  (b = true -> keeps I c) -> keeps I (when b c).
Proof. destruct b; intros H; [now apply H | apply keeps_ret]. Qed.

Lemma keeps_forEach {A} (l : list A) (body : A -> M unit) :
  (forall x, keeps I (body x)) -> keeps I (forEach l body).
Proof.
  intros Hb. induction l as [|x l IH]; cbn [forEach].
  - apply keeps_ret.
  - apply keeps_bind; [apply Hb | intros _; exact IH].
Qed.

Hypothesis I_trace : forall w t, I w -> I (with_trace t w).
Hypothesis I_requests : forall w m, I w -> I (with_requests m w).
Hypothesis I_txError : forall w e, I w -> I (with_txError e w).

Lemma keeps_log (ev : Event) : keeps I (log ev).
Proof. apply keeps_modify. intros w H. now apply I_trace. Qed.

Lemma keeps_async (c : M unit) : keeps I c -> keeps I (async c).
Proof.
  intros Hc w H. unfold async. specialize (Hc w H).
  destruct (c w) as [[a|e] w']; cbn in *; [exact Hc | now apply I_trace].
Qed.

Lemma keeps_update (r : nat) (f : IDBRequest -> IDBRequest) :
  keeps I (update r f).
Proof. apply keeps_modify. intros w H. now apply I_requests. Qed.

Lemma keeps_request_transaction (r : nat) : keeps I (request_transaction r).
Proof.
  apply keeps_bind_gets. intros w H.
  destruct (requests w !! r) as [[? ? ? ? []]|]; exact H.
Qed.

Variable cancels : Event -> bool.
Variable opSync : Op -> Res unit.

Lemma keeps_dispatchEvent (ev : Event) :
  keeps I (dispatchEvent (passiveListeners cancels) ev).
Proof.
  unfold dispatchEvent. apply keeps_bind; [apply keeps_log|].
  intros _ w H. exact H.
Qed.

Lemma keeps_callOp (op : Op) : keeps I (callOp opSync op).
Proof.
  unfold callOp. apply keeps_bind; [apply keeps_log|].
  intros _ w H. exact H.
Qed.

Hypothesis I_finished : forall w, I w -> I (with_state finished w).

Lemma keeps_abortTransaction (error : option Exn) :
  keeps I (abortTransaction (passiveListeners cancels) opSync error).
Proof.
  unfold abortTransaction.
  apply keeps_bind; [apply keeps_callOp | intros _].
  apply keeps_bind; [now apply keeps_modify | intros _].
  apply keeps_bind.
  { apply keeps_when. intros _. apply keeps_modify.
    intros w H. now apply I_txError. }
  intros _. apply keeps_bind; [apply keeps_gets | intros list].
  apply keeps_bind.
  { apply keeps_forEach. intros r. unfold abortRequest, resolve, set_done,
      set_result, set_error.
    repeat (apply keeps_bind; [apply keeps_update | intros _]).
    apply keeps_bind; [apply keeps_dispatchEvent | intros _; apply keeps_ret]. }
  intros _. apply keeps_bind; [apply keeps_dispatchEvent | intros _; apply keeps_ret].
Qed.

End Invariants.

Section NoCommit.
Import Txn.

Variable cancels : Event -> bool.
Variable opSync : Op -> Res unit.

Lemma steady_state (L : list nat) (S : list Task) (s : TransactionState) (w : World) :
  s <> committing -> steady L S w -> steady L S (with_state s w).
Proof. intros Hs (H1 & H2 & _). repeat split; assumption. Qed.

(** With a queue that is not empty, the request body past its operation
    never starts a commit, whatever the operation's outcome. *)
Lemma settle_never_commits (L : list nat) (S : list Task) (r : nat)
  (outcome : Res (option Value)) :
  L <> [] ->
  keeps (steady L S) (async (settle (passiveListeners cancels) opSync r outcome)).
Proof.
  intros HL.
  assert (Ht : forall w t, steady L S w -> steady L S (with_trace t w))
    by (intros w t H; exact H).
  assert (Hr : forall w m, steady L S w -> steady L S (with_requests m w))
    by (intros w m H; exact H).
  assert (He : forall w e, steady L S w -> steady L S (with_txError e w))
    by (intros w e H; exact H).
  assert (Hf : forall w, steady L S w -> steady L S (with_state finished w))
    by (intros w; now apply steady_state).
  assert (Hcommit : keeps (steady L S)
            (bind (gets _requestList)
               (fun list => when (List.length list =? 0)%nat
                              (commitTransaction (passiveListeners cancels) opSync)))).
  { apply keeps_bind_gets. intros w H. destruct H as (H1 & H2 & H3).
    rewrite H1. destruct L; [contradiction|]. cbn. repeat split; assumption. }
  apply keeps_async; [exact Ht|]. unfold settle, resolve, set_done, set_result, set_error.
  apply keeps_bind; [now apply keeps_update | intros _].
  apply keeps_bind; [apply keeps_gets | intros list]. cbn zeta.
  apply keeps_bind; [now apply keeps_update | intros _].
  destruct outcome as [v|e].
  - apply keeps_bind; [now apply keeps_update | intros _].
    apply keeps_bind; [now apply keeps_update | intros _].
    apply keeps_bind; [apply keeps_request_transaction | intros _].
    apply keeps_bind; [apply keeps_gets | intros st].
    apply keeps_bind.
    { apply keeps_when. intros _. apply keeps_modify. intros w.
      now apply steady_state. }
    intros _. apply keeps_bind; [now apply keeps_dispatchEvent | intros _].
    apply keeps_bind; [apply keeps_gets | intros st'].
    destruct (TransactionState_eqb st' active); [|apply keeps_ret].
    apply keeps_bind; [|intros _; exact Hcommit].
    apply keeps_modify. intros w. now apply steady_state.
  - apply keeps_bind; [now apply keeps_update | intros _].
    apply keeps_bind; [now apply keeps_update | intros _].
    apply keeps_bind; [apply keeps_request_transaction | intros _].
    apply keeps_bind; [apply keeps_gets | intros st].
    apply keeps_bind.
    { apply keeps_when. intros _. apply keeps_modify. intros w.
      now apply steady_state. }
    intros _. apply keeps_bind; [now apply keeps_dispatchEvent | intros canceled].
    apply keeps_bind; [apply keeps_gets | intros st'].
    destruct (TransactionState_eqb st' active); [|apply keeps_ret].
    apply keeps_bind.
    { apply keeps_modify. intros w. now apply steady_state. }
    intros _. destruct (negb canceled); [|exact Hcommit].
    apply keeps_bind; [apply keeps_gets | intros error].
    now apply keeps_abortTransaction.
Qed.

(** Enqueuing a request does not start a commit either: if the operation
    throws, its error is settled on the spot, with the request already
    queued. *)
Lemma asynchronouslyExecuteRequest_never_commits
  (operation : Res (option Value)) (request : option nat) (w : World) :
  _state w <> committing ->
  _state (exec (asynchronouslyExecuteRequest (passiveListeners cancels) opSync
                  operation request) w) <> committing.
Proof.
  intros Hst. unfold exec, asynchronouslyExecuteRequest.
  unfold bind at 1. unfold gets at 1. cbn [fst snd].
  destruct (TransactionState_eqb (_state w) active) eqn:Eact; cbn [negb];
    [|exact Hst].
  set (pre := match request with Some r => ret r | None => newRequest end).
  assert (Hpre : _state (snd (pre w)) <> committing
                 /\ exists r, fst (pre w) = Ok r).
  { subst pre. destruct request; cbn; eauto. }
  destruct Hpre as [Hpre [r Hr]].
  unfold bind at 1. destruct (pre w) as [res w1]. cbn in Hpre, Hr. subst res.
  unfold bind at 1. unfold modify at 1.
  set (w2 := with_requestList (_requestList w1 ++ [r]) w1).
  assert (Hsteady : steady (_requestList w2) (suspended w2) w2)
    by (repeat split; exact Hpre).
  unfold bind at 1.
  destruct operation as [v|e].
  - cbn. exact Hpre.
  - assert (Hbody : steady (_requestList w2) (suspended w2)
                      (snd (async (requestBody (passiveListeners cancels) opSync r (Throw e)) w2))).
    { unfold requestBody.
      assert (Ecommitting : TransactionState_eqb (_state w2) committing = false).
      { change (_state w2) with (_state w1).
        destruct (_state w1); try reflexivity. congruence. }
      unfold async. unfold bind at 1. unfold gets at 1. rewrite Ecommitting.
      apply (settle_never_commits (_requestList w2) (suspended w2) r (Throw e));
        [|exact Hsteady].
      subst w2. cbn. destruct (_requestList w1); discriminate. }
    destruct (async (requestBody (passiveListeners cancels) opSync r (Throw e)) w2)
      as [[[]|e'] w3]; cbn in *; apply Hbody.
Qed.

End NoCommit.

(** C1, auto-commit: the claim is that once a request has been processed
    and removed from the queue, an empty queue and an inactive
    transaction lead to one commit.  The request is never removed:
    [slice] is called where [splice] is meant, so the queue still holds
    it when its length is tested and no commit starts.  With the request
    as [asynchronouslyExecuteRequest] builds it the body stops even
    earlier, at [request[_transaction][_state]] on a [null] slot.  In both
    runs below nothing is left to resume, the queue holds the request,
    and the backend commit was never called. *)
Theorem C1_processed_request_stays_queued_no_commit :
  (let w := Txn.drain Txn.noListeners Txn.opOk 10 Scenario.oneRequest in
   Txn._requestList w = [0%nat]
   /\ Txn._state w = active
   /\ Txn.requests w !! 0%nat
      = Some {| Txn._processed := true; Txn._done := true;
                Txn._result := Some (Scenario.num 7); Txn._error := None;
                Txn._transaction := Txn.null |}
   /\ Txn.trace w = [Txn.unhandled_rejection TypeError]
   /\ Txn.turn Txn.noListeners Txn.opOk w = None)
  /\
  (let w := Txn.drain Txn.noListeners Txn.opOk 10 Scenario.oneWiredRequest in
   Txn._requestList w = [0%nat]
   /\ Txn._state w = inactive
   /\ Txn.requests w !! 0%nat
      = Some {| Txn._processed := true; Txn._done := true;
                Txn._result := Some (Scenario.num 7); Txn._error := None;
                Txn._transaction := Txn.the_transaction |}
   /\ Txn.trace w = [Txn.success_event 0]
   /\ Txn.turn Txn.noListeners Txn.opOk w = None).
Proof. cbv zeta. repeat split; vm_compute; reflexivity. Qed.

(** C2, abort: the claim is that a request pending when [abort()] is
    called ends with [done = true], no result and [AbortError], and that
    no success notification follows.  That is the request's state when
    [abort()] returns, but the request body is still suspended at its
    [await] (the loop in [abortTransaction] carries a TODO for this) and
    goes on afterwards: it stores the operation's result, clears the
    error and, when the request refers to its transaction, dispatches
    the success notification after the abort notification. *)
Theorem C2_aborted_request_later_overwritten :
  (Txn.requests Scenario.oneRequest !! 0%nat = Some Txn.new_IDBRequest)
  /\
  (let w := Txn.exec (Txn.abort Txn.noListeners Txn.opOk) Scenario.oneRequest in
   Txn._state w = finished
   /\ Txn.requests w !! 0%nat
      = Some {| Txn._processed := true; Txn._done := true;
                Txn._result := None;
                Txn._error := Some (DOMException AbortError);
                Txn._transaction := Txn.null |})
  /\
  (let w := Txn.drain Txn.noListeners Txn.opOk 10
              (Txn.exec (Txn.abort Txn.noListeners Txn.opOk) Scenario.oneRequest) in
   Txn._state w = finished
   /\ Txn.requests w !! 0%nat
      = Some {| Txn._processed := true; Txn._done := true;
                Txn._result := Some (Scenario.num 7);
                Txn._error := None;
                Txn._transaction := Txn.null |})
  /\
  (let w := Txn.drain Txn.noListeners Txn.opOk 10
              (Txn.exec (Txn.abort Txn.noListeners Txn.opOk)
                 Scenario.oneWiredRequest) in
   Txn.trace w
   = [Txn.backend_call Txn.op_indexeddb_transaction_abort; Txn.error_event 0;
      Txn.abort_event; Txn.success_event 0]
   /\ Txn.requests w !! 0%nat
      = Some {| Txn._processed := true; Txn._done := true;
                Txn._result := Some (Scenario.num 7);
                Txn._error := None;
                Txn._transaction := Txn.the_transaction |}).
Proof. cbv zeta. repeat split; vm_compute; reflexivity. Qed.

(** C3, commit: the claim is that the commit procedure awaits the
    requests in queue order, calls the backend commit, finishes with a
    completion notification if that succeeds, and aborts with the error
    if it throws.  The first three hold in the runs below.  When the
    backend call throws, nothing catches it (steps 2.3 and 2.4 are a
    TODO in [commitTransaction]): the transaction stays in
    ["committing"], no abort is run, its error slot stays empty, and
    the exception ends as the rejection of a promise nobody holds. *)
Theorem C3_failed_backend_commit_leaves_committing :
  (let w := Txn.exec (Txn.commit Txn.noListeners Scenario.commitThrows)
              (Txn.new_World readwrite) in
   Txn._state w = committing
   /\ Txn._txError w = None
   /\ Txn.trace w
      = [Txn.backend_call Txn.op_indexeddb_transaction_commit;
         Txn.unhandled_rejection (BackendError 1)]
   /\ Txn.turn Txn.noListeners Scenario.commitThrows w = None)
  /\
  (let w := Txn.drain Txn.noListeners Scenario.commitThrows 10
              (Txn.exec (Txn.commit Txn.noListeners Scenario.commitThrows)
                 Scenario.oneWiredRequest) in
   Txn._state w = committing
   /\ Txn._txError w = None
   /\ Txn.trace w
      = [Txn.success_event 0; Txn.backend_call Txn.op_indexeddb_transaction_commit;
         Txn.unhandled_rejection (BackendError 1)]
   /\ Txn.turn Txn.noListeners Scenario.commitThrows w = None)
  /\
  (let w := Txn.drain Txn.noListeners Txn.opOk 10
              (Txn.exec (Txn.commit Txn.noListeners Txn.opOk)
                 Scenario.oneWiredRequest) in
   Txn._state w = finished
   /\ Txn.trace w
      = [Txn.success_event 0; Txn.backend_call Txn.op_indexeddb_transaction_commit;
         Txn.complete_event]).
Proof. cbv zeta. repeat split; vm_compute; reflexivity. Qed.

(** * Further properties *)

(** ** Key comparison on every key *)

Lemma signZ_isSign (c : comparison) : isSign (signZ c).
Proof. destruct c; cbv; auto. Qed.

(** Whatever the keys, binary ones included, the answer is -1, 0 or 1. *)
Lemma compareTwoKeys_isSign (a : Key) : forall b, isSign (compareTwoKeys a b).
Proof.
  induction a as [v|v|v|v|l IH] using Key_nested_ind;
    intros [w|w|w|w|m];
    try (unfold isSign; cbn [compareTwoKeys keyType crossType]; auto; fail).
  - cbn [compareTwoKeys]. rewrite number_case_signZ. apply signZ_isSign.
  - cbn [compareTwoKeys]. rewrite date_case_signZ. apply signZ_isSign.
  - cbn [compareTwoKeys]. rewrite string_case_signZ. apply signZ_isSign.
  - cbn [compareTwoKeys].
    destruct (buffer_ltb v w); [unfold isSign; auto|].
    destruct (buffer_ltb w v); unfold isSign; auto.
  - rewrite compareTwoKeys_array. revert m.
    induction IH as [|x l Hx _ IHl]; intros [|y m];
      try (unfold isSign; cbn [compareArrays]; auto; fail).
    cbn [compareArrays].
    destruct (Z.eqb_spec (compareTwoKeys x y) 0); [apply IHl | apply Hx].
Qed.

(** X1, [compareTwoKeys]: every key compares equal to itself, a binary
    key and an array holding binary keys included. *)
Theorem X1_compareTwoKeys_reflexive (a : Key) : compareTwoKeys a a = 0.
Proof. exact (compareTwoKeys_refl a). Qed.

(** X2, [compareTwoKeys]: on any two keys the result is -1, 0 or 1. *)
Theorem X2_compareTwoKeys_answers_a_sign (a b : Key) :
  compareTwoKeys a b = -1 \/ compareTwoKeys a b = 0 \/ compareTwoKeys a b = 1.
Proof. exact (compareTwoKeys_isSign a b). Qed.

(** X3, [compareTwoKeys] on keys of different types: the types alone
    decide, in the order date, number, string, binary, array, and the two
    directions agree. *)
Theorem X3_key_types_decide_across_types (a b : Key) :
  (typeRank (keyType a) < typeRank (keyType b))%nat ->
  compareTwoKeys a b = -1 /\ compareTwoKeys b a = 1.
Proof.
  destruct a, b; cbn; intros H; try lia; split; reflexivity.
Qed.

Lemma X3_key_types_decide_across_types_witness :
  (typeRank (keyType (KDate 5)) < typeRank (keyType (Scenario.key 3)))%nat
  /\ compareTwoKeys (KDate 5) (Scenario.key 3) = -1
  /\ compareTwoKeys (Scenario.key 3) (KDate 5) = 1.
Proof.
  split.
  - cbn. lia.
  - apply (X3_key_types_decide_across_types (KDate 5) (Scenario.key 3)).
    cbn. lia.
Defined.

(** X4, [compareTwoKeys] on keys without binary parts: swapping the
    arguments negates the result. *)
Theorem X4_compareTwoKeys_antisymmetric_without_binary (a b : Key) :
  binaryFree a = true -> binaryFree b = true ->
  compareTwoKeys a b = - compareTwoKeys b a.
Proof. exact (compareTwoKeys_antisym_binaryFree a b). Qed.

Lemma X4_compareTwoKeys_antisymmetric_without_binary_witness :
  compareTwoKeys (KArray [KString "a"; KDate 5]) (KArray [KString "a"; Scenario.key 3])
  = - compareTwoKeys (KArray [KString "a"; Scenario.key 3]) (KArray [KString "a"; KDate 5]).
Proof.
  apply (X4_compareTwoKeys_antisymmetric_without_binary
           (KArray [KString "a"; KDate 5]) (KArray [KString "a"; Scenario.key 3]));
    reflexivity.
Defined.

(** X5, [compareTwoKeys] on keys without binary parts: keys that compare
    equal compare alike with every third key, and "below" is transitive,
    also through a key that compares equal. *)
Theorem X5_compareTwoKeys_transitive_without_binary (a b c : Key) :
  binaryFree a = true -> binaryFree b = true -> binaryFree c = true ->
  (compareTwoKeys a b = 0 -> compareTwoKeys a c = compareTwoKeys b c)
  /\ (compareTwoKeys a b = -1 -> compareTwoKeys b c = -1 -> compareTwoKeys a c = -1)
  /\ (compareTwoKeys a b = -1 -> compareTwoKeys b c = 0 -> compareTwoKeys a c = -1).
Proof. exact (compareTwoKeys_lawful_binaryFree a b c). Qed.

Lemma X5_compareTwoKeys_transitive_without_binary_witness :
  compareTwoKeys (KDate 5) (Scenario.key 3) = -1
  /\ compareTwoKeys (Scenario.key 3) (KArray [KString "a"]) = -1
  /\ compareTwoKeys (KDate 5) (KArray [KString "a"]) = -1.
Proof.
  destruct (X5_compareTwoKeys_transitive_without_binary
              (KDate 5) (Scenario.key 3) (KArray [KString "a"])
              eq_refl eq_refl eq_refl) as (_ & H & _).
  split; [reflexivity | split; [reflexivity | exact (H eq_refl eq_refl)]].
Defined.

(** ** keyToValue and back *)

Section RoundTrip.
Import KeyValue.

Lemma keyToValue_from_array (keys : list Key) (n : nat) :
  keyToValue_from (KArray keys) n
  = (VArray n (fst (keysToValues_from keys (S n))),
     snd (keysToValues_from keys (S n))).
Proof.
  cbn [keyToValue_from].
  match goal with
  | |- (let '(_, _) := ?f keys (S n) in _) = _ =>
      assert (E : forall l m, f l m = keysToValues_from l m)
  end.
  { induction l as [|k l IHl]; intros m; [reflexivity|].
    simpl. destruct (keyToValue_from k m) as [v n1]. rewrite IHl.
    reflexivity. }
  rewrite E. destruct (keysToValues_from keys (S n)). reflexivity.
Qed.

Lemma valueToKey_seen_array (id : nat) (entries : list Value) (seen : list nat) :
  valueToKey_seen (VArray id entries) seen
  = if SetPrototypeHas seen id then (None, seen)
    else valuesToKeys_seen entries (SetPrototypeAdd seen id) [].
Proof.
  cbn [valueToKey_seen]. destruct (SetPrototypeHas seen id); [reflexivity|].
  match goal with
  | |- ?f entries _ _ = _ =>
      assert (E : forall es s acc, f es s acc = valuesToKeys_seen es s acc)
  end.
  { induction es as [|e es IH]; intros s acc; [reflexivity|].
    simpl. destruct (valueToKey_seen e s) as [[k|] s'];
      [apply IH | reflexivity]. }
  apply E.
Qed.

Lemma SetPrototypeHas_fresh (seen : list nat) (n : nat) :
  below n seen -> SetPrototypeHas seen n = false.
Proof.
  intros H. unfold SetPrototypeHas.
  apply not_true_is_false. intros E. apply existsb_exists in E as (x & Hx & Ex).
  apply Nat.eqb_eq in Ex. subst x. specialize (H n Hx). lia.
Qed.

Lemma roundTrips_list (keys : list Key) :
  Forall roundTripsAt keys ->
  forall n seen acc, below n seen ->
    (n <= snd (keysToValues_from keys n))%nat
    /\ exists seen',
         valuesToKeys_seen (fst (keysToValues_from keys n)) seen acc
         = (Some (KArray (acc ++ List.map asArrayBuffers keys)), seen')
         /\ below (snd (keysToValues_from keys n)) seen'.
Proof.
  induction 1 as [|k keys Hk _ IH]; intros n seen acc Hb.
  - cbn. rewrite app_nil_r. split; [lia|]. eauto.
  - cbn [keysToValues_from].
    destruct (Hk n seen Hb) as (Hle & seen1 & E1 & Hb1).
    destruct (keyToValue_from k n) as [v n1]. cbn [fst snd] in *.
    destruct (IH n1 seen1 (acc ++ [asArrayBuffers k]) Hb1) as (Hle2 & seen2 & E2 & Hb2).
    destruct (keysToValues_from keys n1) as [vs n2]. cbn [fst snd] in *.
    split; [lia|]. exists seen2. split; [|exact Hb2].
    cbn [valuesToKeys_seen]. rewrite E1, E2. cbn [List.map].
    now rewrite <- app_assoc.
Qed.

(** The arrays [keyToValue] builds are new objects, so the cycle check
    of [valueToKey] never fires on them. *)
Lemma keyToValue_roundTrips (k : Key) : roundTripsAt k.
Proof.
  induction k as [v|v|v|v|l IH] using Key_nested_ind; intros n seen Hb.
  - cbn. split; [lia|]. eauto.
  - cbn. split; [lia|]. eauto.
  - cbn. split; [lia|]. eauto.
  - destruct v; cbn; (split; [lia|]); eauto.
  - rewrite keyToValue_from_array. cbn [fst snd].
    rewrite valueToKey_seen_array, (SetPrototypeHas_fresh seen n Hb).
    unfold SetPrototypeAdd. rewrite (SetPrototypeHas_fresh seen n Hb).
    assert (Hb' : below (S n) (seen ++ [n])).
    { intros i Hi. apply in_app_or in Hi as [Hi|[<-|[]]]; [|lia].
      specialize (Hb i Hi). lia. }
    destruct (roundTrips_list l IH (S n) (seen ++ [n]) [] Hb') as (Hle & seen' & E & Hb2).
    split; [lia|]. exists seen'. split; [|exact Hb2].
    rewrite E. reflexivity.
Qed.

Lemma valueToKey_keyToValue (k : Key) :
  valueToKey (keyToValue k) = Some (asArrayBuffers k).
Proof.
  destruct (keyToValue_roundTrips k 0%nat []) as (_ & seen' & E & _).
  { intros i []. }
  unfold valueToKey, keyToValue. now rewrite E.
Qed.

End RoundTrip.

(** X6, [keyToValue] then [valueToKey]: the value made from a key always
    converts, and gives the key back, with every binary part held as the
    [ArrayBuffer] that [keyToValue] made of it. *)
Theorem X6_keyToValue_converts_back (k : Key) :
  valueToKey (KeyValue.keyToValue k) = Some (KeyValue.asArrayBuffers k).
Proof. exact (valueToKey_keyToValue k). Qed.

(** X7, [IDBFactory.cmp]: it throws exactly when one of the two values is
    no key, and then [DataError]; what it returns is -1, 0 or 1; a value
    that is a key compares equal to itself. *)
Theorem X7_cmp_throws_DataError_or_answers_a_sign (first second : Value) :
  (Factory.cmp first second = Throw (DOMException DataError)
   <-> valueToKey first = None \/ valueToKey second = None)
  /\ (forall e, Factory.cmp first second = Throw e -> e = DOMException DataError)
  /\ (forall z, Factory.cmp first second = Ok z -> z = -1 \/ z = 0 \/ z = 1)
  /\ (valueToKey first <> None -> Factory.cmp first first = Ok 0).
Proof.
  unfold Factory.cmp.
  destruct (valueToKey first) as [a|], (valueToKey second) as [b|];
    (split; [split|split; [|split]]).
  all: try discriminate; try congruence.
  all: try (intros [H|H]; discriminate).
  all: try (intros _; auto; fail).
  all: try (intros z [= <-]; apply compareTwoKeys_isSign).
  all: try (intros _; now rewrite compareTwoKeys_refl).
  all: try (intros e [= <-]; reflexivity).
Qed.

(** X8, [IDBFactory.cmp] on the values of two keys: the result is the
    comparison of the keys, binary parts as [ArrayBuffer]s. *)
Theorem X8_cmp_of_key_values (a b : Key) :
  Factory.cmp (KeyValue.keyToValue a) (KeyValue.keyToValue b)
  = Ok (compareTwoKeys (KeyValue.asArrayBuffers a) (KeyValue.asArrayBuffers b)).
Proof.
  unfold Factory.cmp. now rewrite !valueToKey_keyToValue.
Qed.

(** ** Key ranges *)

Section RangeFacts.
Import KeyRange.

(** X9, key ranges: a range made by [only], [lowerBound], [upperBound],
    [bound] or [valueToKeyRange] never has its lower bound compare above
    its upper bound. *)
Theorem X9_constructed_ranges_are_well_formed (r : IDBKeyRange) :
  (exists v, only v = Ok r)
  \/ (exists v open, lowerBound v open = Ok r)
  \/ (exists v open, upperBound v open = Ok r)
  \/ (exists lo hi loOpen hiOpen, bound lo hi loOpen hiOpen = Ok r)
  \/ (exists v b, StoreOps.valueToKeyRange (StoreOps.QValue v) b = Ok r)
  \/ (exists b, StoreOps.valueToKeyRange StoreOps.QNull b = Ok r) ->
  wellFormed r.
Proof.
  unfold only, lowerBound, upperBound, bound, StoreOps.valueToKeyRange.
  intros [(v & H)|[(v & o & H)|[(v & o & H)|[(lo & hi & a & b & H)|[(v & b & H)|(b & H)]]]]].
  - destruct (valueToKey v) as [k|]; [|discriminate]. injection H as <-.
    cbn. rewrite compareTwoKeys_refl. discriminate.
  - destruct (valueToKey v) as [k|]; [|discriminate]. injection H as <-. exact I.
  - destruct (valueToKey v) as [k|]; [|discriminate]. injection H as <-. exact I.
  - destruct (valueToKey lo) as [l|]; [|discriminate].
    destruct (valueToKey hi) as [u|]; [|discriminate].
    destruct (Z.eqb_spec (compareTwoKeys l u) 1); [discriminate|].
    injection H as <-. exact n.
  - destruct (valueToKey v) as [k|]; [|discriminate]. injection H as <-.
    cbn. rewrite compareTwoKeys_refl. discriminate.
  - destruct b; [discriminate|]. injection H as <-. exact I.
Qed.

Lemma X9_constructed_ranges_are_well_formed_witness :
  bound (Scenario.num 1) (Scenario.num 10) true false
  = Ok (createRange (Some (Scenario.key 1)) (Some (Scenario.key 10)) true false)
  /\ wellFormed
       (createRange (Some (Scenario.key 1)) (Some (Scenario.key 10)) true false).
Proof.
  split; [reflexivity|].
  apply (X9_constructed_ranges_are_well_formed
           (createRange (Some (Scenario.key 1)) (Some (Scenario.key 10)) true false)).
  right; right; right; left.
  exists (Scenario.num 1), (Scenario.num 10), true, false. reflexivity.
Defined.

(** X10, [IDBKeyRange.only] and [keyInRange]: the range made of a value
    holds exactly the keys that compare equal to the value's key. *)
Theorem X10_only_holds_the_keys_equal_to_its_key (v : Value)
  (r : IDBKeyRange) (k : Key) :
  only v = Ok r ->
  (keyInRange r (OKey k) = true
   <-> exists key, valueToKey v = Some key /\ compareTwoKeys key k = 0).
Proof.
  unfold only. destruct (valueToKey v) as [key|]; [|discriminate].
  intros [= <-]. unfold keyInRange. cbn.
  split.
  - intros H. exists key. split; [reflexivity|].
    destruct (Z.eqb_spec (compareTwoKeys key k) 0); [assumption|].
    destruct (Z.eqb_spec (compareTwoKeys key k) (-1));
      destruct (Z.eqb_spec (compareTwoKeys key k) 1); cbn in H; try discriminate; lia.
  - intros (key' & [= <-] & E). rewrite E. reflexivity.
Qed.

Lemma X10_only_holds_the_keys_equal_to_its_key_witness :
  only (Scenario.num 4)
  = Ok (createRange (Some (Scenario.key 4)) (Some (Scenario.key 4)) false false)
  /\ (keyInRange
        (createRange (Some (Scenario.key 4)) (Some (Scenario.key 4)) false false)
        (OKey (Scenario.key 5)) = true
      <-> exists key, valueToKey (Scenario.num 4) = Some key
                      /\ compareTwoKeys key (Scenario.key 5) = 0).
Proof.
  split.
  - reflexivity.
  - apply (X10_only_holds_the_keys_equal_to_its_key (Scenario.num 4)).
    reflexivity.
Defined.

(** X11, [IDBKeyRange.bound] with the same value at both ends and an end
    left open: if the value converts to a key the call is accepted, and
    the range it returns holds no key. *)
Theorem X11_open_range_on_one_key_is_empty (v : Value) (key : Key)
  (loOpen hiOpen : bool) (k : Key) :
  valueToKey v = Some key ->
  loOpen = true \/ hiOpen = true ->
  bound v v loOpen hiOpen
  = Ok (createRange (Some key) (Some key) loOpen hiOpen)
  /\ keyInRange (createRange (Some key) (Some key) loOpen hiOpen) (OKey k)
     = false.
Proof.
  intros Hv Hopen. split.
  - unfold bound. rewrite Hv, compareTwoKeys_refl. reflexivity.
  - unfold keyInRange. cbn.
    destruct (Z.eqb_spec (compareTwoKeys key k) 0) as [E|E];
      destruct (Z.eqb_spec (compareTwoKeys key k) (-1));
      destruct (Z.eqb_spec (compareTwoKeys key k) 1); try lia;
      destruct loOpen, hiOpen; try reflexivity;
      destruct Hopen; discriminate.
Qed.

Lemma X11_open_range_on_one_key_is_empty_witness :
  valueToKey (Scenario.num 4) = Some (Scenario.key 4)
  /\ bound (Scenario.num 4) (Scenario.num 4) true false
     = Ok (createRange (Some (Scenario.key 4)) (Some (Scenario.key 4)) true false)
  /\ keyInRange
       (createRange (Some (Scenario.key 4)) (Some (Scenario.key 4)) true false)
       (OKey (Scenario.key 4)) = false.
Proof.
  split; [reflexivity|].
  apply (X11_open_range_on_one_key_is_empty (Scenario.num 4) (Scenario.key 4)
           true false (Scenario.key 4)).
  - reflexivity.
  - left. reflexivity.
Defined.

End RangeFacts.

(** ** Key generator over runs *)

Section GeneratorRuns.
Import KeyGenerator.

Lemma run_states_inBounds (calls : list Call) :
  forall g, inBounds g ->
    Forall (fun s => 1 <= s <= two53) (fst (run g calls)).
Proof.
  induction calls as [|c rest IH]; intros g Hg.
  - cbn. constructor; [exact Hg | constructor].
  - rewrite run_states_cons. constructor; [exact Hg|].
    apply IH. now apply current_bounds.
Qed.

(** The [ConstraintError] branch of [generateKey] needs [current] above
    2^53. *)
Lemma generateKey_never_throws (g : KeyGenerator) :
  inBounds g ->
  generateKey g = Ok (KNumber (ofZ (current g)),
                      {| current := JsNumber.succ (current g) |}).
Proof.
  unfold inBounds, generateKey. intros H.
  destruct (Z.gtb_spec (current g) two53); [lia | reflexivity].
Qed.

(** X12, key generator: over any sequence of [generateKey] and
    [possiblyUpdate] calls on a generator that starts between 1 and 2^53,
    as a new one does, [current] stays between 1 and 2^53, and at every
    value it takes [generateKey] returns a key: the [ConstraintError]
    branch is never taken. *)
Theorem X12_generator_stays_in_bounds_and_never_throws
  (g : KeyGenerator) (calls : list Call) :
  inBounds g ->
  Forall (fun s =>
            1 <= s <= two53
            /\ generateKey {| current := s |}
               = Ok (KNumber (ofZ s), {| current := JsNumber.succ s |}))
    (fst (run g calls)).
Proof.
  intros Hg. eapply Forall_impl; [|exact (run_states_inBounds calls g Hg)].
  cbn beta. intros s Hs. split; [exact Hs|].
  exact (generateKey_never_throws {| current := s |} Hs).
Qed.

Lemma X12_generator_stays_in_bounds_and_never_throws_witness :
  inBounds initial
  /\ Forall (fun s =>
               1 <= s <= two53
               /\ generateKey {| current := s |}
                  = Ok (KNumber (ofZ s), {| current := JsNumber.succ s |}))
       (fst (run initial
               [PossiblyUpdate (Scenario.key 9007199254740992); GenerateKey])).
Proof.
  assert (H : inBounds initial) by (unfold inBounds, two53; cbn; lia).
  split; [exact H|].
  exact (X12_generator_stays_in_bounds_and_never_throws initial
           [PossiblyUpdate (Scenario.key 9007199254740992); GenerateKey] H).
Defined.

(** X13, key generator: over any sequence of calls [current] never goes
    down. *)
Theorem X13_generator_current_never_decreases
  (g : KeyGenerator) (calls : list Call) :
  inBounds g ->
  Sorted Z.le (fst (run g calls)).
Proof. exact (run_current_nondecreasing calls g). Qed.

Lemma X13_generator_current_never_decreases_witness :
  Sorted Z.le
    (fst (run initial
            [GenerateKey; PossiblyUpdate (Scenario.key 10);
             PossiblyUpdate (Scenario.key 4); GenerateKey])).
Proof.
  apply (X13_generator_current_never_decreases initial).
  unfold inBounds, two53; cbn; lia.
Defined.

(** X14, key generator: as long as [current] stays below 2^53, every key
    handed out is a number at least the starting [current], and compares
    below every key handed out after it, whatever [possiblyUpdate] calls
    come in between. *)
Theorem X14_generated_keys_increase_below_ceiling
  (g : KeyGenerator) (calls : list Call) :
  inBounds g ->
  Forall (fun s => s < two53) (fst (run g calls)) ->
  Forall (fun k => exists z, k = KNumber (ofZ z) /\ current g <= z)
    (snd (run g calls))
  /\ StronglySorted (fun a b => compareTwoKeys a b = -1) (snd (run g calls)).
Proof. exact (run_keys_increasing_below_ceiling calls g). Qed.

Lemma X14_generated_keys_increase_below_ceiling_witness :
  snd (run initial [GenerateKey; PossiblyUpdate (Scenario.key 10); GenerateKey])
  = [Scenario.key 1; Scenario.key 11]
  /\ StronglySorted (fun a b => compareTwoKeys a b = -1)
       (snd (run initial
               [GenerateKey; PossiblyUpdate (Scenario.key 10); GenerateKey])).
Proof.
  split; [reflexivity|].
  apply (X14_generated_keys_increase_below_ceiling initial).
  - unfold inBounds, two53; cbn; lia.
  - repeat (constructor; [reflexivity|]). constructor.
Defined.

(** X15, [possiblyUpdate] with a number key below 2^53: afterwards
    [current] is above the key's integer part, so the generator will not
    hand that key out. *)
Theorem X15_possiblyUpdate_moves_past_the_key
  (g : KeyGenerator) (v : number) (z : Z) :
  floorMin v = Some z -> z < two53 ->
  z < current (possiblyUpdate g (KNumber v)).
Proof.
  intros E Hz. unfold possiblyUpdate. rewrite E.
  destruct (Z.geb_spec z (current g)); cbn; [|lia].
  rewrite succ_below by assumption. lia.
Qed.

Lemma X15_possiblyUpdate_moves_past_the_key_witness :
  floorMin (Finite (7 # 2)) = Some 3
  /\ 3 < current (possiblyUpdate initial (KNumber (Finite (7 # 2)))).
Proof.
  split; [reflexivity|].
  apply (X15_possiblyUpdate_moves_past_the_key initial (Finite (7 # 2)) 3).
  - reflexivity.
  - reflexivity.
Defined.

(** X16, [possiblyUpdate]: a second call with the same key changes
    nothing. *)
Theorem X16_possiblyUpdate_idempotent (g : KeyGenerator) (k : Key) :
  possiblyUpdate (possiblyUpdate g k) k = possiblyUpdate g k.
Proof.
  destruct k as [v| | | |]; try reflexivity.
  unfold possiblyUpdate. destruct (floorMin v) as [z|] eqn:E; [|reflexivity].
  pose proof (floorMin_le v z E) as Hle.
  destruct (Z.geb_spec z (current g)) as [H|H]; cbn.
  - unfold JsNumber.succ. destruct (Z.eqb_spec z two53) as [->|Hne].
    + cbn. reflexivity.
    + destruct (Z.geb_spec z (z + 1)); [lia | reflexivity].
  - destruct (Z.geb_spec z (current g)); [lia | reflexivity].
Qed.

(** X17, [generateKey] called [n] times in a row with room below 2^53:
    the keys are [current], [current + 1], ..., [current + n - 1]. *)
Theorem X17_successive_generated_keys (n : nat) : forall g : KeyGenerator,
  inBounds g ->
  current g + Z.of_nat n <= two53 ->
  snd (run g (repeat GenerateKey n))
  = List.map (fun i => KNumber (ofZ (current g + Z.of_nat i))) (seq 0 n).
Proof.
  induction n as [|n IH]; intros g Hg Hn.
  - reflexivity.
  - cbn [repeat]. rewrite run_keys_cons.
    assert (Hlt : current g < two53) by lia.
    cbn [call]. rewrite (generateKey_below_ceiling g Hlt). cbn [fst snd].
    rewrite (IH {| current := current g + 1 |}).
    + cbn [current seq List.map]. rewrite Z.add_0_r. f_equal.
      rewrite <- seq_shift, List.map_map. apply List.map_ext.
      intros i. do 2 f_equal. lia.
    + unfold inBounds in *. cbn. lia.
    + cbn. lia.
Qed.

Lemma X17_successive_generated_keys_witness :
  snd (run initial (repeat GenerateKey 3))
  = List.map (fun i => KNumber (ofZ (current initial + Z.of_nat i))) (seq 0 3).
Proof.
  apply (X17_successive_generated_keys 3 initial).
  - unfold inBounds, two53; cbn; lia.
  - unfold two53; cbn; lia.
Defined.

End GeneratorRuns.

(** ** Object stores *)

Section StoreFacts.
Import ObjectStore StoreOps.

(** Whatever the query, [valueToKeyRange] throws nothing but
    [DataError]. *)
Lemma valueToKeyRange_throws_DataError (q : Query) (b : bool) (e : Exn) :
  valueToKeyRange q b = Throw e -> e = DOMException DataError.
Proof.
  destruct q as [r| |v]; cbn.
  - discriminate.
  - destruct b; [now intros [= <-] | discriminate].
  - destruct (valueToKey v); [discriminate | now intros [= <-]].
Qed.

Section Gates.
Variable assertObjectStore : IDBObjectStore -> Res unit.

(** X18, [delete], [clear] and [get] on a store that exists, in an active
    transaction: [delete] and [clear] throw [ReadOnlyError] exactly when
    the mode is read-only, [clear] goes through in every other mode, and
    [get] never throws [ReadOnlyError]. *)
Theorem X18_delete_and_clear_refuse_readonly (this : IDBObjectStore)
  (q : Query) :
  assertObjectStore this = Ok tt ->
  _state this = active ->
  (delete assertObjectStore this q = Throw (DOMException ReadOnlyError)
   <-> _mode this = readonly)
  /\ (clear assertObjectStore this = Throw (DOMException ReadOnlyError)
      <-> _mode this = readonly)
  /\ (clear assertObjectStore this = Ok tt <-> _mode this <> readonly)
  /\ get assertObjectStore this q <> Throw (DOMException ReadOnlyError).
Proof.
  intros Hex Hst. unfold delete, clear, get. rewrite Hex. cbn. rewrite Hst. cbn.
  assert (Hq : valueToKeyRange q true <> Throw (DOMException ReadOnlyError)).
  { intros H. apply valueToKeyRange_throws_DataError in H. discriminate. }
  destruct (_mode this); cbn; repeat split; try congruence; try discriminate;
    try (intros H; contradiction).
Qed.

Variable clone : Value -> Res Value.
Variable extractKeyFromValueUsingKeyPath : Value -> KeyPath -> Extracted.
Variable checkKeyCanBeInjectedIntoValue : Value -> KeyPath -> bool.

Lemma addOrPut_keyless_needs_generator (handle : IDBObjectStore)
  (value : Value) (key : option Value) (noOverwrite : bool)
  (op : StoreOperation) :
  addOrPut assertObjectStore clone extractKeyFromValueUsingKeyPath
    checkKeyCanBeInjectedIntoValue handle value key noOverwrite
  = Ok op ->
  so_key op = None ->
  keyGenerator (_store handle) <> None.
Proof.
  unfold addOrPut, res_bind.
  destruct (assertObjectStore handle); [|discriminate].
  destruct (negb (TransactionState_eqb (_state handle) active)); [discriminate|].
  destruct (negb (IDBTransactionMode_eqb (_mode handle) readonly)); [discriminate|].
  destruct (keyPath (_store handle)) as [kp|] eqn:Ekp;
    destruct key as [k|]; cbn; try discriminate.
  - destruct (clone value) as [cloned|]; [|discriminate].
    destruct (extractKeyFromValueUsingKeyPath cloned kp) as [|[kpk|]]; cbn.
    + destruct (keyGenerator (_store handle)); cbn; [|discriminate].
      intros _ _. discriminate.
    + intros [= <-]. discriminate.
    + discriminate.
  - destruct (keyGenerator (_store handle)); cbn.
    + intros _ _. discriminate.
    + destruct (valueToKey k); [|discriminate].
      destruct (clone value); [|discriminate]. intros [= <-]. discriminate.
  - destruct (keyGenerator (_store handle)); cbn; [|discriminate].
    intros _ _. discriminate.
Qed.

(** X19, [addOrPut]: a write that is accepted without a key, none given
    and none found in the value, is a write to a store that has a key
    generator. *)
Theorem X19_keyless_write_needs_a_generator (handle : IDBObjectStore)
  (value : Value) (key : option Value) (noOverwrite : bool)
  (op : StoreOperation) :
  addOrPut assertObjectStore clone extractKeyFromValueUsingKeyPath
    checkKeyCanBeInjectedIntoValue handle value key noOverwrite
  = Ok op ->
  so_key op = None ->
  keyGenerator (_store handle) <> None.
Proof.
  exact (addOrPut_keyless_needs_generator handle value key noOverwrite op).
Qed.

End Gates.

Lemma X18_delete_and_clear_refuse_readonly_witness :
  let this := {| _state := active; _mode := readonly;
                 _store := {| keyPath := None; keyGenerator := None |} |} in
  delete (fun _ => Ok tt) this (QValue (Scenario.num 1))
  = Throw (DOMException ReadOnlyError)
  /\ clear (fun _ => Ok tt) this = Throw (DOMException ReadOnlyError).
Proof.
  cbv zeta.
  destruct (X18_delete_and_clear_refuse_readonly (fun _ => Ok tt)
              {| _state := active; _mode := readonly;
                 _store := {| keyPath := None; keyGenerator := None |} |}
              (QValue (Scenario.num 1)) eq_refl eq_refl)
    as (Hd & Hc & _).
  split; [exact (proj2 Hd eq_refl) | exact (proj2 Hc eq_refl)].
Defined.

Lemma X19_keyless_write_needs_a_generator_witness :
  let handle := {| _state := active; _mode := readonly;
                   _store := {| keyPath := None;
                                keyGenerator := Some KeyGenerator.initial |} |} in
  addOrPut (fun _ => Ok tt) (fun v => Ok v) (fun _ _ => _failure)
    (fun _ _ => true) handle (VString "a") None true
  = Ok {| so_value := VString "a"; so_key := None; so_noOverwrite := true |}
  /\ keyGenerator (_store handle) <> None.
Proof.
  cbv zeta. split; [reflexivity|].
  apply (X19_keyless_write_needs_a_generator (fun _ => Ok tt) (fun v => Ok v)
           (fun _ _ => _failure) (fun _ _ => true)
           {| _state := active; _mode := readonly;
              _store := {| keyPath := None;
                           keyGenerator := Some KeyGenerator.initial |} |}
           (VString "a") None true
           {| so_value := VString "a"; so_key := None; so_noOverwrite := true |});
    reflexivity.
Defined.

Section StoreRecordFacts.

Variable Index : Type.
Variable injectKeyIntoValueUsingKeyPath : Value -> Key -> KeyPath -> Res Value.
Variable op_add_or_put_records : Value -> option Key -> bool -> Res (list Index).
Variable extractIndexKey : Value -> Index -> Res Extracted.
Variable op_handle_index : Index -> option Key -> Res unit.

(** The backend calls go through. *)
Hypothesis op_add_ok : forall v k b, exists l, op_add_or_put_records v k b = Ok l.
Hypothesis op_index_ok : forall i k, op_handle_index i k = Ok tt.

Lemma handleIndexes_ok (value : Value) (indexes : list Index) :
  handleIndexes Index extractIndexKey op_handle_index value indexes = Ok tt.
Proof.
  induction indexes as [|i rest IH]; cbn; [reflexivity|].
  destruct (extractIndexKey value i) as [[|[k|]]|e]; cbn;
    rewrite ?op_index_ok; cbn; exact IH.
Qed.

Variable assertObjectStore : IDBObjectStore -> Res unit.
Variable clone : Value -> Res Value.
Variable extractKeyFromValueUsingKeyPath : Value -> KeyPath -> Extracted.
Variable checkKeyCanBeInjectedIntoValue : Value -> KeyPath -> bool.

(** X20, [addOrPut] then [storeRecordIntoObjectStore] on a store without
    key path, the backend calls going through and the generator being
    between 1 and 2^53: the value stored is the clone; a write that came
    with a key is stored under the key its value converts to, and the
    generator, if the store has one, is updated with that key; a write
    that came without a key is stored under the generator's [current],
    which then moves on by one. *)
Theorem X20_accepted_write_is_stored_under_a_key (handle : IDBObjectStore)
  (value : Value) (key : option Value) (noOverwrite : bool)
  (op : StoreOperation) :
  keyPath (_store handle) = None ->
  (forall g, keyGenerator (_store handle) = Some g -> KeyGenerator.inBounds g) ->
  addOrPut assertObjectStore clone extractKeyFromValueUsingKeyPath
    checkKeyCanBeInjectedIntoValue handle value key noOverwrite
  = Ok op ->
  let stored :=
    storeRecordIntoObjectStore Index injectKeyIntoValueUsingKeyPath
      op_add_or_put_records extractIndexKey op_handle_index
      (_store handle) (so_value op) (so_key op) (so_noOverwrite op) in
  clone value = Ok (so_value op)
  /\ match key with
     | Some v =>
         exists k,
           valueToKey v = Some k
           /\ snd stored = Ok (Some k)
           /\ keyGenerator (fst stored)
              = option_map (fun g => KeyGenerator.possiblyUpdate g k)
                  (keyGenerator (_store handle))
     | None =>
         exists g,
           keyGenerator (_store handle) = Some g
           /\ snd stored = Ok (Some (KNumber (ofZ (KeyGenerator.current g))))
           /\ keyGenerator (fst stored)
              = Some {| KeyGenerator.current :=
                          JsNumber.succ (KeyGenerator.current g) |}
     end.
Proof.
  intros Hkp Hg Hput. cbv zeta.
  unfold addOrPut, res_bind in Hput.
  destruct (assertObjectStore handle); [|discriminate].
  destruct (negb (TransactionState_eqb (_state handle) active)); [discriminate|].
  destruct (negb (IDBTransactionMode_eqb (_mode handle) readonly)); [discriminate|].
  rewrite Hkp in Hput. cbn [isSome andb negb] in Hput.
  unfold storeRecordIntoObjectStore. rewrite Hkp.
  destruct key as [v|]; cbn [isSome andb negb] in Hput.
  - rewrite andb_false_r in Hput.
    destruct (valueToKey v) as [k|]; [|discriminate].
    destruct (clone value) as [cloned|]; [|discriminate].
    injection Hput as <-. cbn [so_value so_key so_noOverwrite].
    split; [reflexivity|]. exists k. split; [reflexivity|].
    destruct (keyGenerator (_store handle)) as [g|] eqn:Eg; cbn;
      destruct (op_add_ok cloned (Some k) noOverwrite) as [l ->];
      cbn; rewrite handleIndexes_ok; cbn; auto.
  - rewrite andb_true_r in Hput.
    destruct (keyGenerator (_store handle)) as [g|] eqn:Eg;
      cbn [isSome negb] in Hput; [|discriminate].
    destruct (clone value) as [cloned|]; [|discriminate].
    injection Hput as <-. cbn [so_value so_key so_noOverwrite].
    split; [reflexivity|]. exists g. split; [reflexivity|].
    rewrite (generateKey_never_throws g (Hg g eq_refl)). cbn.
    destruct (op_add_ok cloned (Some (KNumber (ofZ (KeyGenerator.current g))))
                noOverwrite) as [l ->].
    cbn. rewrite handleIndexes_ok. cbn. auto.
Qed.

End StoreRecordFacts.

Lemma X20_accepted_write_is_stored_under_a_key_witness :
  let handle := {| _state := active; _mode := readonly;
                   _store := {| keyPath := None;
                                keyGenerator := Some KeyGenerator.initial |} |} in
  let op := {| so_value := VString "a"; so_key := None; so_noOverwrite := true |} in
  let stored :=
    storeRecordIntoObjectStore unit (fun v _ _ => Ok v)
      (fun _ _ _ => Ok [tt]) (fun _ _ => Ok _failure) (fun _ _ => Ok tt)
      (_store handle) (so_value op) (so_key op) (so_noOverwrite op) in
  addOrPut (fun _ => Ok tt) (fun v => Ok v) (fun _ _ => _failure)
    (fun _ _ => true) handle (VString "a") None true = Ok op
  /\ Ok (VString "a") = Ok (so_value op)
  /\ exists g,
       keyGenerator (_store handle) = Some g
       /\ snd stored = Ok (Some (KNumber (ofZ (KeyGenerator.current g))))
       /\ keyGenerator (fst stored)
          = Some {| KeyGenerator.current :=
                      JsNumber.succ (KeyGenerator.current g) |}.
Proof.
  cbv zeta. split; [reflexivity|].
  refine (X20_accepted_write_is_stored_under_a_key unit (fun v _ _ => Ok v)
            (fun _ _ _ => Ok [tt]) (fun _ _ => Ok _failure) (fun _ _ => Ok tt)
            _ _ (fun _ => Ok tt) (fun v => Ok v)
            (fun _ _ => _failure) (fun _ _ => true)
            {| _state := active; _mode := readonly;
               _store := {| keyPath := None;
                            keyGenerator := Some KeyGenerator.initial |} |}
            (VString "a") None true
            {| so_value := VString "a"; so_key := None; so_noOverwrite := true |}
            _ _ _).
  - intros v k b. exists [tt]. reflexivity.
  - intros i k. reflexivity.
  - reflexivity.
  - intros g Hg. cbn in Hg. injection Hg as <-.
    unfold KeyGenerator.inBounds, two53; cbn; lia.
  - reflexivity.
Defined.

End StoreFacts.

(** ** Cursor steps *)

Section CursorSteps.
Import Cursor CursorOps.

Lemma findM_some {A} (p : A -> Res bool) (l : list A) (x : A) :
  findM p l = Ok (Some x) -> In x l /\ p x = Ok true.
Proof.
  induction l as [|y rest IH]; cbn; [discriminate|].
  destruct (p y) as [[|]|e] eqn:E; cbn.
  - intros [= <-]. auto.
  - intros H. destruct (IH H). auto.
  - discriminate.
Qed.

Lemma findM_none {A} (p : A -> Res bool) (l : list A) :
  (forall x, In x l -> p x = Ok false) -> findM p l = Ok None.
Proof.
  induction l as [|y rest IH]; intros H; cbn; [reflexivity|].
  rewrite (H y) by (left; reflexivity). cbn. apply IH.
  intros x Hx. apply H. now right.
Qed.

(** The position test on a store cursor. *)
Lemma positionTest_store (c : IDBCursor) (toward : Z) (position : option Key)
  (r : Record_) :
  _source c = IDBObjectStore ->
  positionTest c toward position r
  = Ok match position with
       | None => true
       | Some pos => compareTwoKeys (fst r) pos =? toward
       end.
Proof.
  intros Hs. unfold positionTest. rewrite Hs. cbn.
  destruct position; reflexivity.
Qed.

(** A record found by one search of a cursor over a store, whatever the
    target key: it is listed, in range, past the position, and passes
    the test on the target key. *)
Lemma select_sound (records : list Record_) (c : IDBCursor)
  (key : option Operand) (position : option Key) (r : Record_) :
  _source c = IDBObjectStore ->
  _direction c <> prevunique ->
  select c key None records position None = Ok (Some r) ->
  In r records
  /\ KeyRange.keyInRange (_range c) (OKey (fst r)) = true
  /\ (forall pos, position = Some pos ->
        compareTwoKeys (fst r) pos = if forward (_direction c) then 1 else -1)
  /\ keyTest key (if forward (_direction c) then -1 else 1) (fst r) = true.
Proof.
  intros Hs Hd. unfold select.
  destruct (_direction c) eqn:Ed; [| | |contradiction]; cbn [forward].
  - intros H. apply findM_some in H as [Hin Hp].
    unfold matchesNext in Hp. cbn in Hp.
    rewrite (positionTest_store c 1 position r Hs) in Hp. cbn in Hp.
    injection Hp as Hp. apply andb_prop in Hp as [Hp Hr].
    apply andb_prop in Hp as [Hp Hpos]. rewrite andb_true_r in Hp.
    repeat split; try assumption.
    intros pos E. rewrite E in Hpos. now apply Z.eqb_eq.
  - intros H. apply findM_some in H as [Hin Hp].
    unfold matchesNextUnique in Hp.
    injection Hp as Hp. apply andb_prop in Hp as [Hp Hr].
    apply andb_prop in Hp as [Hp Hpos].
    repeat split; try assumption.
    intros pos E. rewrite E in Hpos. now apply Z.eqb_eq.
  - destruct (findM (matchesPrev c key None position) (rev records))
      as [[x|]|e] eqn:H; cbn; try discriminate.
    intros [= <-]. apply findM_some in H as [Hin Hp].
    unfold matchesPrev in Hp. cbn in Hp.
    rewrite (positionTest_store c (-1) position x Hs) in Hp. cbn in Hp.
    injection Hp as Hp. apply andb_prop in Hp as [Hp Hr].
    apply andb_prop in Hp as [Hp Hpos]. rewrite andb_true_r in Hp.
    repeat split; try assumption; [now apply in_rev|].
    intros pos E. rewrite E in Hpos. now apply Z.eqb_eq.
Qed.

(** X21, [iterateCursor] by one on a cursor over a store ([next],
    [nextunique] or [prev]): when a record is found it is one of the
    store's records, its key is in the cursor's range and strictly past
    the old position in the cursor's direction, and it becomes the
    cursor's key and position, with its value unless the cursor is
    key-only. *)
Theorem X21_cursor_step_lands_on_a_record_in_range
  (records : list Record_) (c c' : IDBCursor) :
  _source c = IDBObjectStore ->
  _direction c <> prevunique ->
  iterateCursor records c None None None = Ok (c', true) ->
  exists r, In r records
    /\ _key c' = Some (fst r)
    /\ _position c' = Some (fst r)
    /\ _gotValue c' = true
    /\ (_keyOnly c = false -> _value c' = Some (snd r))
    /\ KeyRange.keyInRange (_range c) (OKey (fst r)) = true
    /\ pastPosition c (fst r).
Proof.
  intros Hs Hd. unfold iterateCursor. cbn [loop].
  destruct (select c None None records (_position c) None) as [[r|]|e] eqn:Esel;
    cbn; try discriminate.
  intros [= <-].
  destruct (select_sound records c None (_position c) r Hs Hd Esel)
    as (Hin & Hr & Hpos & _).
  exists r. cbn. repeat split; try assumption.
  intros ->. reflexivity.
Qed.

Lemma X21_cursor_step_lands_on_a_record_in_range_witness :
  iterateCursor Scenario.records (Scenario.cursorAt 2) None None None
  = Ok (Scenario.cursorAt 3, true)
  /\ exists r, In r Scenario.records
       /\ _key (Scenario.cursorAt 3) = Some (fst r)
       /\ _position (Scenario.cursorAt 3) = Some (fst r)
       /\ _gotValue (Scenario.cursorAt 3) = true
       /\ (_keyOnly (Scenario.cursorAt 2) = false ->
           _value (Scenario.cursorAt 3) = Some (snd r))
       /\ KeyRange.keyInRange (_range (Scenario.cursorAt 2)) (OKey (fst r)) = true
       /\ pastPosition (Scenario.cursorAt 2) (fst r).
Proof.
  split; [reflexivity|].
  apply (X21_cursor_step_lands_on_a_record_in_range Scenario.records
           (Scenario.cursorAt 2) (Scenario.cursorAt 3)).
  - reflexivity.
  - discriminate.
  - reflexivity.
Defined.

Lemma loop_exhausted (records : list Record_) (c : IDBCursor)
  (key : option Operand) (n : nat) (position : option Key)
  (osp : option Value) :
  _source c = IDBObjectStore ->
  (forall r, In r records -> KeyRange.keyInRange (_range c) (OKey (fst r)) = false) ->
  loop c key None records (S n) position osp None = Ok (exhausted c, false).
Proof.
  intros Hs Hout. cbn [loop].
  assert (Hsel : select c key None records position None = Ok None).
  { unfold select. destruct (_direction c).
    - apply findM_none. intros r Hr. unfold matchesNext. cbn.
      rewrite (positionTest_store c 1 position r Hs). cbn.
      unfold inRange. rewrite (Hout r Hr). now rewrite !andb_false_r.
    - apply findM_none. intros r Hr. unfold matchesNextUnique.
      unfold inRange. rewrite (Hout r Hr). now rewrite !andb_false_r.
    - rewrite findM_none; [reflexivity|].
      intros r Hr. apply in_rev in Hr. unfold matchesPrev. cbn.
      rewrite (positionTest_store c (-1) position r Hs). cbn.
      unfold inRange. rewrite (Hout r Hr). now rewrite !andb_false_r.
    - rewrite findM_none; [reflexivity|].
      intros r Hr. apply in_rev in Hr. unfold matchesPrevUnique.
      unfold inRange. rewrite (Hout r Hr). now rewrite !andb_false_r. }
  rewrite Hsel. reflexivity.
Qed.

(** X22, [iterateCursor] on a cursor over a store none of whose records
    is in the cursor's range: whatever the direction, the target key and
    the count (other than zero), nothing is found, and the cursor keeps
    its key and position and loses its value unless it is key-only. *)
Theorem X22_cursor_step_finds_nothing_outside_range
  (records : list Record_) (c : IDBCursor)
  (key : option Operand) (count : option nat) :
  _source c = IDBObjectStore ->
  count <> Some 0%nat ->
  (forall r, In r records -> KeyRange.keyInRange (_range c) (OKey (fst r)) = false) ->
  iterateCursor records c key None count = Ok (exhausted c, false).
Proof.
  intros Hs Hc Hout. unfold iterateCursor.
  destruct count as [[|n]|]; [congruence| |]; now apply loop_exhausted.
Qed.

Lemma X22_cursor_step_finds_nothing_outside_range_witness :
  let c := {| _source := IDBObjectStore;
              _direction := prev;
              _range :=
                KeyRange.createRange (Some (Scenario.key 7)) (Some (Scenario.key 9))
                  false false;
              _keyOnly := false;
              _position := None;
              _objectStorePosition := None;
              _key := None;
              _value := None;
              _gotValue := false |} in
  iterateCursor Scenario.records c None None (Some 2%nat)
  = Ok (exhausted c, false).
Proof.
  cbv zeta.
  apply (X22_cursor_step_finds_nothing_outside_range Scenario.records).
  - reflexivity.
  - discriminate.
  - intros r Hr.
    repeat (destruct Hr as [<-|Hr]; [reflexivity|]). destruct Hr.
Defined.

Lemma loop_frame (records : list Record_) (c : IDBCursor)
  (key : option Operand) (pk : option Key) (n : nat) :
  forall position osp found c' b,
    loop c key pk records n position osp found = Ok (c', b) ->
    _source c' = _source c /\ _direction c' = _direction c
    /\ _range c' = _range c /\ _keyOnly c' = _keyOnly c.
Proof.
  induction n as [|n IH]; intros position osp found c' b; cbn [loop].
  - destruct found; [|discriminate]. intros [= <- _]. auto.
  - destruct (select c key pk records position found) as [[r|]|e]; cbn;
      [apply IH | intros [= <- _]; auto | discriminate].
Qed.

(** X23, [iterateCursor]: whatever it is asked, a call that returns has
    left the cursor's source, direction, range and key-only flag as they
    were. *)
Theorem X23_iterateCursor_keeps_the_cursor_settings
  (records : list Record_) (c c' : IDBCursor)
  (key : option Operand) (primaryKey : option Key) (count : option nat)
  (found : bool) :
  iterateCursor records c key primaryKey count = Ok (c', found) ->
  _source c' = _source c /\ _direction c' = _direction c
  /\ _range c' = _range c /\ _keyOnly c' = _keyOnly c.
Proof.
  unfold iterateCursor.
  destruct (match primaryKey with None => false | Some _ => _ end);
    [discriminate|].
  apply loop_frame.
Qed.

Lemma X23_iterateCursor_keeps_the_cursor_settings_witness :
  iterateCursor Scenario.records (Scenario.cursorAt 2)
    (Some (OKey (Scenario.key 5))) None None
  = Ok (Scenario.cursorAt 5, true)
  /\ _source (Scenario.cursorAt 5) = _source (Scenario.cursorAt 2)
  /\ _direction (Scenario.cursorAt 5) = _direction (Scenario.cursorAt 2)
  /\ _range (Scenario.cursorAt 5) = _range (Scenario.cursorAt 2)
  /\ _keyOnly (Scenario.cursorAt 5) = _keyOnly (Scenario.cursorAt 2).
Proof.
  split; [reflexivity|].
  apply (X23_iterateCursor_keeps_the_cursor_settings Scenario.records
           (Scenario.cursorAt 2) (Scenario.cursorAt 5)
           (Some (OKey (Scenario.key 5))) None None true).
  reflexivity.
Defined.

(** X24, [continue(key)]: no call is ever accepted.  Whatever the cursor,
    the key, the records and the backend, it throws
    [TransactionInactiveError] when the transaction is not active and
    otherwise the [TypeError] of [assertCursor], before the key is looked
    at; nothing is queued and the cursor is left as it is. *)
Theorem X24_continue_always_throws
  (assertSource : IDBCursor -> Res unit)
  (records : list Record_) (state : TransactionState)
  (this : IDBCursor) (key : option Value) :
  continue assertSource records state this key
  = Throw (if TransactionState_eqb state active then TypeError
           else DOMException TransactionInactiveError).
Proof.
  unfold continue.
  destruct (TransactionState_eqb state active); cbn [negb]; [|reflexivity].
  now rewrite assertCursor_throws.
Qed.

End CursorSteps.

(** ** Entry points of a transaction *)

Section TransactionEntryPoints.
Import Txn.

Variable cancels : Event -> bool.
Variable opSync : Op -> Res unit.

Lemma abort_eq (w : World) :
  openState w ->
  abort (passiveListeners cancels) opSync w
  = abortTransaction (passiveListeners cancels) opSync None (with_state inactive w).
Proof.
  intros Hopen. unfold abort, bind, gets, modify. cbn.
  destruct Hopen as [-> | ->]; reflexivity.
Qed.

(** [abort()] with a backend whose abort call succeeds: the state, the
    notifications in the order they go out, and the requests. *)
Lemma abort_passive (w : World) :
  opSync op_indexeddb_transaction_abort = Ok tt ->
  openState w ->
  let r := abort (passiveListeners cancels) opSync w in
  fst r = Ok tt
  /\ _state (snd r) = finished
  /\ _requestList (snd r) = _requestList w
  /\ suspended (snd r) = suspended w
  /\ trace (snd r)
     = trace w ++ [backend_call op_indexeddb_transaction_abort]
       ++ List.map error_event (_requestList w) ++ [abort_event]
  /\ (forall i, In i (_requestList w) ->
        requests (snd r) !! i = markAborted <$> requests w !! i)
  /\ (forall i, ~ In i (_requestList w) ->
        requests (snd r) !! i = requests w !! i).
Proof.
  intros Hop Hopen. rewrite (abort_eq w Hopen).
  exact (abortTransaction_passive cancels opSync None (with_state inactive w) Hop).
Qed.

(** Once a transaction is finished, every entry point refuses and
    leaves the world as it is. *)
Lemma finished_refuses (w : World) (operation : Res (option Value))
  (request : option nat) :
  _state w = finished ->
  abort (passiveListeners cancels) opSync w
  = (Throw (DOMException InvalidStateError), w)
  /\ commit (passiveListeners cancels) opSync w
     = (Throw (DOMException InvalidStateError), w)
  /\ asynchronouslyExecuteRequest (passiveListeners cancels) opSync
       operation request w
     = (Throw AssertionError, w).
Proof.
  intros Hst.
  unfold abort, commit, asynchronouslyExecuteRequest, bind, gets, throw.
  rewrite Hst. cbn. auto.
Qed.

(** X25, [abort()] on an active or inactive transaction whose backend
    abort call succeeds, the listeners calling nothing back: the call
    returns, the transaction is finished, the backend call is followed by
    one error notification per queued request, in queue order, and then
    the abort notification; every queued request is done, without result
    and with [AbortError], and no other request is touched. *)
Theorem X25_abort_fails_every_queued_request_in_order (w : World) :
  opSync op_indexeddb_transaction_abort = Ok tt ->
  openState w ->
  let r := abort (passiveListeners cancels) opSync w in
  fst r = Ok tt
  /\ _state (snd r) = finished
  /\ _requestList (snd r) = _requestList w
  /\ suspended (snd r) = suspended w
  /\ trace (snd r)
     = trace w ++ [backend_call op_indexeddb_transaction_abort]
       ++ List.map error_event (_requestList w) ++ [abort_event]
  /\ (forall i, In i (_requestList w) ->
        requests (snd r) !! i = markAborted <$> requests w !! i)
  /\ (forall i, ~ In i (_requestList w) ->
        requests (snd r) !! i = requests w !! i).
Proof. exact (abort_passive w). Qed.

(** X26, a finished transaction: after an [abort()] that returned,
    [abort()] and [commit()] throw [InvalidStateError], a new request is
    refused by the assertion, and none of the three changes anything. *)
Theorem X26_aborted_transaction_refuses_every_call (w : World)
  (operation : Res (option Value)) (request : option nat) :
  opSync op_indexeddb_transaction_abort = Ok tt ->
  openState w ->
  let w' := exec (abort (passiveListeners cancels) opSync) w in
  abort (passiveListeners cancels) opSync w'
  = (Throw (DOMException InvalidStateError), w')
  /\ commit (passiveListeners cancels) opSync w'
     = (Throw (DOMException InvalidStateError), w')
  /\ asynchronouslyExecuteRequest (passiveListeners cancels) opSync
       operation request w'
     = (Throw AssertionError, w').
Proof.
  intros Hop Hopen. cbv zeta.
  apply finished_refuses.
  exact (proj1 (proj2 (abort_passive w Hop Hopen))).
Qed.

(** An explicit commit on an empty queue runs to its end at once. *)
Lemma commit_empty_queue (w : World) :
  _state w = active ->
  _requestList w = [] ->
  _mode w <> versionchange ->
  opSync op_indexeddb_transaction_commit = Ok tt ->
  commit (passiveListeners cancels) opSync w
  = (Ok tt,
     with_trace (trace w ++ [backend_call op_indexeddb_transaction_commit;
                             complete_event])
       (with_state finished w)).
Proof.
  intros Hst Hl Hm Hop.
  destruct w as [st md er list reqs nx sus tr]. cbn in Hst, Hl, Hm. subst st list.
  unfold commit, commitTransaction, async, commitFrom, finishCommit, callOp,
    bind, log, modify, gets, dispatchEvent, bind, log, modify, passiveListeners.
  cbn. rewrite Hop. cbn.
  destruct md; try contradiction; cbn; now rewrite <- app_assoc.
Qed.

(** X28, [commit()] on an active transaction with an empty queue whose
    backend commit call succeeds: the call returns with the transaction
    finished, the backend called once and the completion notification
    sent. *)
Theorem X28_commit_of_an_empty_queue_finishes_at_once (w : World) :
  _state w = active ->
  _requestList w = [] ->
  _mode w <> versionchange ->
  opSync op_indexeddb_transaction_commit = Ok tt ->
  commit (passiveListeners cancels) opSync w
  = (Ok tt,
     with_trace (trace w ++ [backend_call op_indexeddb_transaction_commit;
                             complete_event])
       (with_state finished w)).
Proof. exact (commit_empty_queue w). Qed.

Lemma drain_done (fuel : nat) (w : World) :
  suspended w = [] -> drain (passiveListeners cancels) opSync fuel w = w.
Proof.
  intros H. destruct fuel; [reflexivity|]. cbn [drain]. unfold turn.
  rewrite H. reflexivity.
Qed.

Lemma resumed_body_committing (u : World) (r : nat) (v : option Value) :
  _state u = committing ->
  exec (resume (passiveListeners cancels) opSync (resume_request r v)) u
  = with_trace (trace u ++ [settledEvent u r])
      (with_requests (alter (markSucceeded v) r (requests u)) u).
Proof.
  intros Hst.
  destruct u as [st md er list reqs nx sus tr]. cbn in Hst. subst st.
  assert (E : alter
    (fun r0 => {| _processed := _processed r0; _done := _done r0; _result := _result r0;
                  _error := None; _transaction := _transaction r0 |})
    r (alter
    (fun r0 => {| _processed := _processed r0; _done := _done r0; _result := v;
                  _error := _error r0; _transaction := _transaction r0 |})
    r (alter
    (fun r0 => {| _processed := _processed r0; _done := true; _result := _result r0;
                  _error := _error r0; _transaction := _transaction r0 |})
    r (alter
    (fun r0 => {| _processed := true; _done := _done r0; _result := _result r0;
                  _error := _error r0; _transaction := _transaction r0 |})
    r reqs))) = alter (markSucceeded v) r reqs).
  { apply map_eq. intros i. destruct (decide (r = i)) as [->|Hne].
    - rewrite !lookup_alter_eq. destruct (reqs !! i); reflexivity.
    - rewrite !lookup_alter_ne by assumption. reflexivity. }
  unfold exec, resume, async, settle, settledEvent.
  unfold bind, resolve, set_done, set_result, set_error, update, modify,
    gets, request_transaction, bind, gets, when, dispatchEvent, log, bind,
    modify, passiveListeners; cbn.
  rewrite E. rewrite lookup_alter_eq.
  destruct (reqs !! r) as [[p d res e [|]]|]; cbn; reflexivity.
Qed.

Lemma settledEvent_txOf (u u' : World) (r : nat) :
  txOf u' r = txOf u r -> settledEvent u' r = settledEvent u r.
Proof.
  unfold txOf, settledEvent.
  destruct (requests u' !! r) as [[? ? ? ? t']|], (requests u !! r) as [[? ? ? ? t]|];
    cbn; intros H; try discriminate; try reflexivity.
  injection H as ->. reflexivity.
Qed.

(** The request bodies go first, in the order they were suspended. *)
Lemma request_bodies_run (bodies : list (nat * option Value)) :
  forall (u : World) (rest : list Task) (fuel : nat),
    _state u = committing ->
    suspended u = List.map bodyOf bodies ++ rest ->
    (List.length bodies <= fuel)%nat ->
    exists u1,
      drain (passiveListeners cancels) opSync fuel u
      = drain (passiveListeners cancels) opSync (fuel - List.length bodies) u1
      /\ _state u1 = committing
      /\ _mode u1 = _mode u
      /\ _requestList u1 = _requestList u
      /\ suspended u1 = rest
      /\ trace u1 = trace u ++ List.map (fun b => settledEvent u (fst b)) bodies
      /\ (forall r, txOf u1 r = txOf u r)
      /\ (forall r, isProcessed u r = true -> isProcessed u1 r = true)
      /\ (forall r, In r (List.map fst bodies) -> requests u !! r <> None ->
            isProcessed u1 r = true).
Proof.
  induction bodies as [|[r v] bodies IH]; intros u rest fuel Hst Hsus Hfuel.
  - exists u. cbn in *. rewrite Nat.sub_0_r, app_nil_r.
    repeat split; auto; intros r [].
  - destruct fuel as [|fuel]; [cbn in Hfuel; lia|].
    cbn [drain]. unfold turn. rewrite Hsus.
    change (List.map bodyOf ((r, v) :: bodies) ++ rest)
      with (resume_request r v :: (List.map bodyOf bodies ++ rest)).
    cbn [takeReady ready app].
    pose proof (resumed_body_committing
                  (with_suspended (List.map bodyOf bodies ++ rest) u) r v Hst) as E.
    unfold exec in E. rewrite E. clear E.
    set (u0 := with_trace _ _).
    destruct (IH u0 rest fuel) as (u1 & Hd & H1 & H2 & H3 & H4 & H5 & H6 & H7 & H8).
    { exact Hst. }
    { reflexivity. }
    { cbn in Hfuel. lia. }
    assert (Htx : forall r', txOf u0 r' = txOf u r').
    { intros r'. unfold txOf. subst u0. cbn.
      destruct (decide (r = r')) as [->|Hne].
      - rewrite lookup_alter_eq. destruct (requests u !! r'); reflexivity.
      - now rewrite lookup_alter_ne. }
    assert (Hp : forall r', isProcessed u r' = true -> isProcessed u0 r' = true).
    { intros r'. unfold isProcessed. subst u0. cbn.
      destruct (decide (r = r')) as [->|Hne].
      - rewrite lookup_alter_eq. destruct (requests u !! r'); cbn; auto.
      - now rewrite lookup_alter_ne. }
    assert (Hr : requests u !! r <> None -> isProcessed u0 r = true).
    { unfold isProcessed. subst u0. cbn. rewrite lookup_alter_eq.
      destruct (requests u !! r); cbn; congruence. }
    assert (Hdom : forall r', requests u !! r' <> None -> requests u0 !! r' <> None).
    { intros r'. subst u0. cbn. destruct (decide (r = r')) as [->|Hne].
      - rewrite lookup_alter_eq. destruct (requests u !! r'); cbn; congruence.
      - now rewrite lookup_alter_ne. }
    exists u1. cbn [List.length Nat.sub]. split; [exact Hd|].
    repeat split; auto.
    + rewrite H5. subst u0. cbn [trace with_trace with_requests with_suspended].
      rewrite <- app_assoc. cbn [app List.map fst]. f_equal. f_equal.
      apply List.map_ext. intros b. apply settledEvent_txOf. apply Htx.
    + intros r'. now rewrite H6, Htx.
    + intros r' [<-|Hin] Hex.
      * apply H7. now apply Hr.
      * apply H8; [exact Hin | now apply Hdom].
Qed.

(** Then the commit body walks the queue and finishes. *)
Lemma commit_body_finishes (d : nat) :
  forall (i : nat) (u : World) (fuel : nat),
    opSync op_indexeddb_transaction_commit = Ok tt ->
    _state u = committing ->
    _mode u <> versionchange ->
    suspended u = [resume_commit i] ->
    List.length (_requestList u) = (i + S d)%nat ->
    (forall r, In r (_requestList u) -> isProcessed u r = true) ->
    (S d <= fuel)%nat ->
    drain (passiveListeners cancels) opSync fuel u
    = with_trace (trace u ++ [backend_call op_indexeddb_transaction_commit;
                              complete_event])
        (with_state finished (with_suspended [] u)).
Proof.
  induction d as [|d IH]; intros i u fuel Hop Hst Hmode Hsus Hlen Hall Hfuel;
    (destruct fuel as [|fuel]; [lia|]); cbn [drain]; unfold turn; rewrite Hsus;
    cbn [takeReady ready].
  - destruct (lookup_lt_is_Some_2 (_requestList u) i) as [q Hq]; [lia|].
    rewrite Hq. rewrite (Hall q) by (eapply list_elem_of_In, list_elem_of_lookup_2; eauto).
    cbn [app resume].
    assert (Hnone : _requestList u !! S i = None)
      by (apply lookup_ge_None; lia).
    assert (E : (async (commitFrom (passiveListeners cancels) opSync (S i))
                   (with_suspended [] u)).2
                = exec (async (finishCommit (passiveListeners cancels) opSync))
                    (with_suspended [] u)).
    { unfold exec, async, commitFrom. unfold bind at 1. unfold gets at 1.
      cbn [fst snd with_suspended _requestList]. rewrite Hnone. reflexivity. }
    rewrite E. rewrite (finishCommit_backend_ok cancels opSync (with_suspended [] u) Hop Hst Hmode).
    apply drain_done. reflexivity.
  - destruct (lookup_lt_is_Some_2 (_requestList u) i) as [q Hq]; [lia|].
    rewrite Hq. rewrite (Hall q) by (eapply list_elem_of_In, list_elem_of_lookup_2; eauto).
    cbn [app resume].
    destruct (lookup_lt_is_Some_2 (_requestList u) (S i)) as [q' Hq']; [lia|].
    assert (E : (async (commitFrom (passiveListeners cancels) opSync (S i))
                   (with_suspended [] u)).2
                = with_suspended [resume_commit (S i)] u).
    { unfold async, commitFrom, bind, gets, suspend, modify. cbn.
      rewrite Hq'. cbn. reflexivity. }
    rewrite E.
    rewrite (IH (S i) (with_suspended [resume_commit (S i)] u) fuel Hop Hst Hmode
               eq_refl); [reflexivity| |exact Hall|lia].
    cbn. lia.
Qed.

(** With requests in the queue [commit()] only suspends the commit body. *)
Lemma commit_suspends (w : World) :
  _state w = active ->
  _requestList w <> [] ->
  commit (passiveListeners cancels) opSync w
  = (Ok tt,
     with_suspended (suspended w ++ [resume_commit 0])
       (with_state committing w)).
Proof.
  intros Hst Hl.
  destruct w as [st md er list reqs nx sus tr]. cbn in Hst, Hl. subst st.
  destruct list as [|x l]; [contradiction|]. reflexivity.
Qed.

(** X29, [commit()] with requests in the queue, none of whose bodies has
    gone on yet, and a backend whose commit call succeeds: the bodies go
    on in queue order, each with its success notification (or the
    rejection on a [null] transaction slot), and only then is the backend
    commit called, once, followed by the completion notification; the
    transaction is finished, every queued request is processed and no
    body is left suspended. *)
Theorem X29_commit_runs_once_every_request_has_settled (w : World)
  (bodies : list (nat * option Value)) (fuel : nat) :
  opSync op_indexeddb_transaction_commit = Ok tt ->
  _state w = active ->
  _mode w <> versionchange ->
  suspended w = List.map bodyOf bodies ->
  _requestList w = List.map fst bodies ->
  (forall r, In r (_requestList w) -> requests w !! r <> None) ->
  (2 * List.length bodies <= fuel)%nat ->
  let w' := drain (passiveListeners cancels) opSync fuel
              (exec (commit (passiveListeners cancels) opSync) w) in
  _state w' = finished
  /\ suspended w' = []
  /\ _requestList w' = _requestList w
  /\ trace w'
     = trace w ++ List.map (fun b => settledEvent w (fst b)) bodies
       ++ [backend_call op_indexeddb_transaction_commit; complete_event]
  /\ (forall r, In r (_requestList w) -> isProcessed w' r = true).
Proof.
  intros Hop Hst Hmode Hsus Hlist Hex Hfuel. cbv zeta. unfold exec.
  destruct bodies as [|b bodies].
  - rewrite (commit_empty_queue w Hst Hlist Hmode Hop). cbn [snd].
    rewrite drain_done by (cbn; exact Hsus).
    cbn. rewrite Hlist. repeat split; auto; intros r [].
  - rewrite (commit_suspends w Hst) by (rewrite Hlist; discriminate).
    cbn [snd]. rewrite Hsus.
    set (u := with_suspended _ _).
    destruct (request_bodies_run (b :: bodies) u [resume_commit 0] fuel)
      as (u1 & Hd & H1 & H2 & H3 & H4 & H5 & H6 & H7 & H8).
    { reflexivity. }
    { reflexivity. }
    { cbn in *. lia. }
    rewrite Hd.
    assert (Hall : forall r, In r (_requestList u1) -> isProcessed u1 r = true).
    { intros r Hr. rewrite H3 in Hr. change (_requestList u) with (_requestList w) in Hr.
      apply H8.
      - now rewrite <- Hlist.
      - now apply Hex. }
    rewrite (commit_body_finishes (List.length bodies) 0 u1
               (fuel - List.length (b :: bodies)) Hop H1);
      [| now rewrite H2 | exact H4
       | rewrite H3; change (_requestList u) with (_requestList w);
         rewrite Hlist, length_map; reflexivity
       | exact Hall | cbn in *; lia].
    cbn. repeat split.
    + exact H3.
    + rewrite H5. change (trace u) with (trace w).
      rewrite <- !app_assoc. f_equal.
    + intros r Hr. apply Hall. now rewrite H3.
Qed.

(** X30, [abort()] when the backend's abort call throws: the exception
    goes to the caller, the transaction is left inactive, not finished,
    no request is failed and no notification is sent. *)
Theorem X30_abort_with_failing_backend_leaves_inactive (w : World) (e : Exn) :
  openState w ->
  opSync op_indexeddb_transaction_abort = Throw e ->
  abort (passiveListeners cancels) opSync w
  = (Throw e,
     with_trace (trace w ++ [backend_call op_indexeddb_transaction_abort])
       (with_state inactive w)).
Proof.
  intros Hopen Hop. rewrite (abort_eq w Hopen).
  unfold abortTransaction, callOp, log.
  unfold bind at 1. unfold bind at 1. unfold modify at 1. cbn [fst snd].
  rewrite Hop. reflexivity.
Qed.

End TransactionEntryPoints.

Lemma X25_abort_fails_every_queued_request_in_order_witness :
  Txn.trace (snd (Txn.abort (Txn.passiveListeners (fun _ => false)) Txn.opOk
                    Scenario.oneWiredRequest))
  = Txn.trace Scenario.oneWiredRequest
    ++ [Txn.backend_call Txn.op_indexeddb_transaction_abort]
    ++ List.map Txn.error_event (Txn._requestList Scenario.oneWiredRequest)
    ++ [Txn.abort_event].
Proof.
  destruct (X25_abort_fails_every_queued_request_in_order (fun _ => false)
              Txn.opOk Scenario.oneWiredRequest eq_refl (or_introl eq_refl))
    as (_ & _ & _ & _ & H & _).
  exact H.
Defined.

Lemma X26_aborted_transaction_refuses_every_call_witness :
  let w' := Txn.exec (Txn.abort (Txn.passiveListeners (fun _ => false)) Txn.opOk)
              Scenario.oneRequest in
  Txn.abort (Txn.passiveListeners (fun _ => false)) Txn.opOk w'
  = (Throw (DOMException InvalidStateError), w')
  /\ Txn.commit (Txn.passiveListeners (fun _ => false)) Txn.opOk w'
     = (Throw (DOMException InvalidStateError), w')
  /\ Txn.asynchronouslyExecuteRequest (Txn.passiveListeners (fun _ => false))
       Txn.opOk (Ok None) None w'
     = (Throw AssertionError, w').
Proof.
  exact (X26_aborted_transaction_refuses_every_call (fun _ => false) Txn.opOk
           Scenario.oneRequest (Ok None) None eq_refl (or_introl eq_refl)).
Defined.

Lemma X28_commit_of_an_empty_queue_finishes_at_once_witness :
  Txn.commit (Txn.passiveListeners (fun _ => false)) Txn.opOk
    (Txn.new_World readwrite)
  = (Ok tt,
     Txn.with_trace
       (Txn.trace (Txn.new_World readwrite)
        ++ [Txn.backend_call Txn.op_indexeddb_transaction_commit;
            Txn.complete_event])
       (Txn.with_state finished (Txn.new_World readwrite))).
Proof.
  apply (X28_commit_of_an_empty_queue_finishes_at_once (fun _ => false) Txn.opOk
           (Txn.new_World readwrite)).
  - reflexivity.
  - reflexivity.
  - discriminate.
  - reflexivity.
Defined.

Lemma X29_commit_runs_once_every_request_has_settled_witness :
  let w' := Txn.drain (Txn.passiveListeners (fun _ => false)) Txn.opOk 2
              (Txn.exec (Txn.commit (Txn.passiveListeners (fun _ => false)) Txn.opOk)
                 Scenario.oneWiredRequest) in
  Txn._state w' = finished
  /\ Txn.suspended w' = []
  /\ Txn._requestList w' = Txn._requestList Scenario.oneWiredRequest
  /\ Txn.trace w'
     = Txn.trace Scenario.oneWiredRequest
       ++ List.map (fun b => settledEvent Scenario.oneWiredRequest (fst b))
            [(0%nat, Some (Scenario.num 7))]
       ++ [Txn.backend_call Txn.op_indexeddb_transaction_commit;
           Txn.complete_event]
  /\ (forall r, In r (Txn._requestList Scenario.oneWiredRequest) ->
        Txn.isProcessed w' r = true).
Proof.
  refine (X29_commit_runs_once_every_request_has_settled (fun _ => false)
            Txn.opOk Scenario.oneWiredRequest [(0%nat, Some (Scenario.num 7))]
            2 eq_refl eq_refl _ eq_refl eq_refl _ _).
  - discriminate.
  - intros r [<-|[]]. vm_compute. discriminate.
  - cbn. lia.
Defined.

Lemma X30_abort_with_failing_backend_leaves_inactive_witness :
  Txn.abort (Txn.passiveListeners (fun _ => false))
    (fun _ => Throw (BackendError 1)) Scenario.oneRequest
  = (Throw (BackendError 1),
     Txn.with_trace
       (Txn.trace Scenario.oneRequest
        ++ [Txn.backend_call Txn.op_indexeddb_transaction_abort])
       (Txn.with_state inactive Scenario.oneRequest)).
Proof.
  exact (X30_abort_with_failing_backend_leaves_inactive (fun _ => false)
           (fun _ => Throw (BackendError 1)) Scenario.oneRequest (BackendError 1)
           (or_introl eq_refl) eq_refl).
Defined.
